(** * Verification of the CNAME-cloaking engine and the reverse-lookup cache
    of dnstap-to-influxdb.

    Shallow embedding of [cnameprocessor.go] (the command-channel version:
    [processCommands], [processUpdateLists], [processDnstapMessage],
    [getBlockedDomains], [addKeys], [removeKeys], [loadRpzFile],
    [NewCnameProcessor], [updateHandler]) and of the decoder with its TTL
    cache ([getHost], [getTime], [getDnsMsg], [Run]).

    Modelling choices:
    - Go's [map[string]bool] block lists are only ever written with [true]
      and read with the zero-value default, so they are modelled as
      [gset string] (membership = the map read returning [true]).
    - [map[string]string] is [gmap string string]; a read of an absent key
      returns the zero value, the empty string.
    - Effects of the command loop (messages put on the unbound channel, a
      runtime panic, and the unbounded [for {}] loop) are a small result
      monad [Res]: [Done] carries the sent unbound commands, [Panicked] is
      a Go runtime panic, [OutOfFuel] is a loop that did not finish within
      the fuel given to it. *)

From Stdlib Require Import String Ascii ZArith Lia.
From stdpp Require Import base gmap sets list strings.

Open Scope string_scope.
Open Scope list_scope.

(* ------------------------------------------------------------------ *)
(** ** Result monad of the command loop *)

Inductive UnboundCmd := ZoneAdd | ZoneRemove.

Record UnboundCommandMessage := {
  cmd : UnboundCmd;
  domain : string
}.

#[global] Instance UnboundCmd_eq_dec : EqDecision UnboundCmd.
Proof. solve_decision. Defined.

#[global] Instance UnboundCommandMessage_eq_dec : EqDecision UnboundCommandMessage.
Proof.
  intros [c1 d1] [c2 d2].
  destruct (decide (c1 = c2)) as [->|Hc]; [|right; congruence].
  destruct (decide (d1 = d2)) as [->|Hd]; [left; reflexivity|right; congruence].
Defined.

Inductive Res (A : Type) : Type :=
  | Done (a : A) (sent : list UnboundCommandMessage)
  | Panicked
  | OutOfFuel.
Arguments Done {A} a sent.
Arguments Panicked {A}.
Arguments OutOfFuel {A}.

#[global] Instance Res_ret : MRet Res := fun A a => Done a [].
#[global] Instance Res_bind : MBind Res := fun A B f m =>
  match m with
  | Done a s =>
      match f a with
      | Done b s' => Done b (s ++ s')
      | Panicked => Panicked
      | OutOfFuel => OutOfFuel
      end
  | Panicked => Panicked
  | OutOfFuel => OutOfFuel
  end.

(** Sending on the unbound command channel. *)
Definition send (m : UnboundCommandMessage) : Res unit := Done tt [m].

(* ------------------------------------------------------------------ *)
(** ** DNS messages (the parts of miekg/dns the engine reads) *)

Definition TypeCNAME : N := 5.

Record RR_Header := {
  Hdr_Name : string;
  Rrtype : N
}.

(** A resource record: a [*dns.CNAME] or any other record type. *)
Inductive RR :=
  | CNAME (Hdr : RR_Header) (Target : string)
  | OtherRR (Hdr : RR_Header).

Definition Header (rr : RR) : RR_Header :=
  match rr with CNAME h _ => h | OtherRR h => h end.

Record Question := { Name : string }.

Record Msg := {
  Question_ : list Question;
  Answer : list RR
}.

(** [Message] of processor.go; only the parsed DNS message is read by the
    engine ([nil] when unpacking failed). *)
Record Message := { dnsMessage : option Msg }.

(** The engine state: the [CnameProcessor] fields read and written by the
    command loop. *)
Record CnameProcessor := {
  blockedCnames : gmap string string;
  blockedDomains : gset string
}.

Inductive Command :=
  | DnsTapCommand (message : Message)
  | UpdateListsCommand (newBlocked : gset string).

(* ------------------------------------------------------------------ *)
(** ** processDnstapMessage *)

(** Go map read with the zero value as default. *)
Definition map_get (m : gmap string string) (k : string) : string :=
  default "" (m !! k).

(** "build the chain": [cnames] starts as [nil] and is allocated at the
    first record whose header type is CNAME; the type assertion
    [rr.( *dns.CNAME)] yields [nil] on a non-CNAME value, and the following
    [cname.Hdr] dereference panics. *)
Fixpoint build_chain (answers : list RR) (cnames : option (gmap string string))
    : Res (option (gmap string string)) :=
  match answers with
  | [] => Done cnames []
  | rr :: rest =>
      if N.eqb (Rrtype (Header rr)) TypeCNAME then
        let cn := default ∅ cnames in
        match rr with
        | CNAME hdr target => build_chain rest (Some (<[Hdr_Name hdr := target]> cn))
        | OtherRR _ => Panicked
        end
      else build_chain rest cnames
  end.

(** "walk the chain": the [for {}] loop, run for at most [fuel] rounds.
    [Done None] is the [break] on an empty lookup, [Done (Some cname)] the
    [break] after finding a blocked [cname]. *)
Fixpoint walk (fuel : nat) (blocked : gset string) (cnames : gmap string string)
    (check : string) : Res (option string) :=
  match fuel with
  | O => OutOfFuel
  | S fuel' =>
      let cname := map_get cnames check in
      if Nat.eqb (String.length cname) 0 then Done None []
      else if decide (cname ∈ blocked) then Done (Some cname) []
      else walk fuel' blocked cnames cname
  end.

Definition processDnstapMessage (fuel : nat) (proc : CnameProcessor)
    (message : Message) : Res CnameProcessor :=
  match dnsMessage message with
  | Some m =>
      if Nat.ltb 0 (length (Answer m)) then
        match Question_ m with
        | [] => Panicked   (* Question[0]: index out of range *)
        | q :: _ =>
            let qname := Name q in
            if decide (qname ∈ blockedDomains proc) then mret proc
            else
              cnames ← build_chain (Answer m) None;
              match cnames with
              | None => mret proc
              | Some cn =>
                  r ← walk fuel (blockedDomains proc) cn qname;
                  match r with
                  | None => mret proc
                  | Some cname =>
                      let proc' := {| blockedCnames := <[qname := cname]> (blockedCnames proc);
                                      blockedDomains := {[qname]} ∪ blockedDomains proc |} in
                      _ ← send {| cmd := ZoneAdd; domain := qname |};
                      mret proc'
                  end
              end
        end
      else mret proc
  | None => mret proc
  end.

(* ------------------------------------------------------------------ *)
(** ** processUpdateLists *)

(** One round of [for qname, cname := range *proc.blockedCnames]. Deleting
    the current key during a Go map range is allowed, and every entry of
    the map is visited once. *)
Definition update_entry (newBlocked : gset string)
    (acc : gmap string string * list UnboundCommandMessage)
    (entry : string * string) : gmap string string * list UnboundCommandMessage :=
  let '(cm, sent) := acc in
  let '(qname, cname) := entry in
  if decide (cname ∈ newBlocked) then (cm, sent)
  else (delete qname cm, sent ++ [{| cmd := ZoneRemove; domain := qname |}]).

Definition processUpdateLists (proc : CnameProcessor) (newBlocked : gset string)
    : Res CnameProcessor :=
  let '(cm, sent) := fold_left (update_entry newBlocked)
                       (map_to_list (blockedCnames proc)) (blockedCnames proc, []) in
  Done {| blockedCnames := cm; blockedDomains := newBlocked |} sent.

(* ------------------------------------------------------------------ *)
(** ** processCommands *)

Definition processCommand (fuel : nat) (proc : CnameProcessor) (c : Command)
    : Res CnameProcessor :=
  match c with
  | DnsTapCommand message => processDnstapMessage fuel proc message
  | UpdateListsCommand nb => processUpdateLists proc nb
  end.

(** [for command := range proc.commands]: the commands in channel order. *)
Fixpoint processCommands (fuel : nat) (proc : CnameProcessor) (cmds : list Command)
    : Res CnameProcessor :=
  match cmds with
  | [] => mret proc
  | c :: rest => proc' ← processCommand fuel proc c; processCommands fuel proc' rest
  end.

(* ------------------------------------------------------------------ *)
(** ** Sample data *)

Definition cname_rr (name target : string) : RR :=
  CNAME {| Hdr_Name := name; Rrtype := TypeCNAME |} target.

Definition a_rr (name : string) : RR :=
  OtherRR {| Hdr_Name := name; Rrtype := 1 |}.

Definition chain_msg : Message :=
  {| dnsMessage := Some {| Question_ := [{| Name := "a." |}];
                           Answer := [cname_rr "a." "b."; cname_rr "b." "c."; a_rr "c."] |} |}.

Definition proc_c : CnameProcessor :=
  {| blockedCnames := ∅; blockedDomains := {["c."]} |}.

(* ------------------------------------------------------------------ *)
(** ** Block-list composition: addKeys, removeKeys, getBlockedDomains *)

(** [for key := range keysMap { destMap[key] = true }], with the
    range visiting the keys in the order [order] (Go's map iteration
    order is unspecified). *)
Definition addKeys_in (order : list string) (destMap : gset string) : gset string :=
  fold_left (fun acc key => acc ∪ {[key]}) order destMap.

(** [for key := range keysMap { delete(destMap, key) }]. *)
Definition removeKeys_in (order : list string) (destMap : gset string) : gset string :=
  fold_left (fun acc key => acc ∖ {[key]}) order destMap.

Definition addKeys (destMap keysMap : gset string) : gset string :=
  addKeys_in (elements keysMap) destMap.

Definition removeKeys (destMap keysMap : gset string) : gset string :=
  removeKeys_in (elements keysMap) destMap.

(* ------------------------------------------------------------------ *)
(** ** loadRpzFile: the line regexp
    [^(local-zone:\s*Q)?(([a-z0-9]+([-a-z0-9]+)*\.)+[a-z]{2,}\.?)]
    (Q is a double-quote character) with Go's leftmost-first
    (backtracking-order) match semantics. *)

Definition is_lower (c : ascii) : bool :=
  Nat.leb 97 (nat_of_ascii c) && Nat.leb (nat_of_ascii c) 122.
Definition is_digit (c : ascii) : bool :=
  Nat.leb 48 (nat_of_ascii c) && Nat.leb (nat_of_ascii c) 57.
(** [[a-z0-9]] *)
Definition is_L (c : ascii) : bool := is_lower c || is_digit c.
(** [[-a-z0-9]] *)
Definition is_H (c : ascii) : bool := is_L c || Nat.eqb (nat_of_ascii c) 45.
(** RE2 [\s] = [[\t\n\f\r ]] *)
Definition is_space (c : ascii) : bool :=
  existsb (Nat.eqb (nat_of_ascii c)) [9; 10; 12; 13; 32].
Definition is_dot (c : ascii) : bool := Nat.eqb (nat_of_ascii c) 46.
Definition quote_char : ascii := ascii_of_nat 34.

(** Longest prefix whose characters satisfy [p], and the rest. *)
Fixpoint span (p : ascii -> bool) (s : string) : string * string :=
  match s with
  | EmptyString => (EmptyString, EmptyString)
  | String c r =>
      if p c then let '(a, b) := span p r in (String c a, b)
      else (EmptyString, s)
  end.

(** One iteration of [([a-z0-9]+([-a-z0-9]+)*\.)]: a character of
    [[a-z0-9]], then characters of [[-a-z0-9]], then a dot. The dot must be
    the first character outside [[-a-z0-9]], so the iteration is
    deterministic. Returns the matched text and the rest. *)
Definition label (s : string) : option (string * string) :=
  match s with
  | String c r =>
      if is_L c then
        let '(h, r') := span is_H r in
        match r' with
        | String d r'' => if is_dot d then Some (String c (String.append h (String d EmptyString)), r'')
                          else None
        | EmptyString => None
        end
      else None
  | EmptyString => None
  end.

(** The successive iterations of the group [(...)+]: for k = 1, 2, ...,
    the text of the first k labels and the rest after them. *)
Fixpoint labels_from (fuel : nat) (s : string) : list (string * string) :=
  match fuel with
  | O => []
  | S f =>
      match label s with
      | None => []
      | Some (l, r) => (l, r) :: map (fun '(p, r') => (String.append l p, r')) (labels_from f r)
      end
  end.

(** [[a-z]{2,}\.?] at the start of [r]: both quantifiers are greedy and
    nothing follows them, so the longest run is taken. *)
Definition tld (r : string) : option string :=
  let '(a, r') := span is_lower r in
  if Nat.leb 2 (String.length a) then
    Some (String.append a (match r' with
                           | String d _ => if is_dot d then String d EmptyString else EmptyString
                           | EmptyString => EmptyString
                           end))
  else None.

Fixpoint first_some {A B} (f : A -> option B) (l : list A) : option B :=
  match l with
  | [] => None
  | x :: r => match f x with Some y => Some y | None => first_some f r end
  end.

(** Group 2 matched at the start of [s]: the greedy [+] tries the largest
    number of labels first and backtracks to fewer. *)
Definition domain_match (s : string) : option string :=
  first_some (fun '(p, r) => option_map (String.append p) (tld r))
             (rev (labels_from (String.length s) s)).

(** [local-zone:\s*Q] (Q a double quote) at the start of the line, and
    the rest after it. *)
Fixpoint strip_prefix (p s : string) : option string :=
  match p, s with
  | EmptyString, _ => Some s
  | String c p', String d s' => if Ascii.eqb c d then strip_prefix p' s' else None
  | String _ _, EmptyString => None
  end.

Definition zone_prefix (s : string) : option string :=
  match strip_prefix "local-zone:" s with
  | Some rest =>
      let '(_, r) := span is_space rest in
      match r with
      | String q r' => if Ascii.eqb q quote_char then Some r' else None
      | EmptyString => None
      end
  | None => None
  end.

(** [re.FindStringSubmatch(line)] and its [match[2]]: the optional group
    is greedy, so the match with the prefix is tried first. *)
Definition rpz_match (line : string) : option string :=
  match zone_prefix line with
  | Some r => match domain_match r with
              | Some d => Some d
              | None => domain_match line
              end
  | None => domain_match line
  end.

Definition HasSuffixDot (s : string) : bool :=
  match last (list_ascii_of_string s) with
  | Some c => is_dot c
  | None => false
  end.

(** [if !strings.HasSuffix(domain, ".") { domain += "." }] *)
Definition dot_terminate (domain : string) : string :=
  if HasSuffixDot domain then domain else String.append domain ".".

(** The body of the scanner loop. *)
Definition rpz_line (domains : gset string) (line : string) : gset string :=
  match rpz_match line with
  | Some domain => domains ∪ {[dot_terminate domain]}
  | None => domains
  end.

(** A list file: [None] when [os.Stat] or [os.Open] fails, otherwise its
    lines as produced by [bufio.Scanner]. On error the Go function returns
    a map together with the error, and every caller drops the map. *)
Definition loadRpzFile (file : option (list string)) : option (gset string) :=
  match file with
  | None => None
  | Some lines => Some (fold_left rpz_line lines ∅)
  end.

Definition getBlockedDomains (blockedFile whitelistFile blacklistFile : option (list string))
    : option (gset string) :=
  whitelistDomains ← loadRpzFile whitelistFile;
  blacklistDomains ← loadRpzFile blacklistFile;
  blockedDomains ← loadRpzFile blockedFile;
  Some (removeKeys (addKeys blockedDomains blacklistDomains) whitelistDomains).

(* ------------------------------------------------------------------ *)
(** ** net.IP.String (Go standard library), used as the cache key *)

Definition digit_char (n : nat) : ascii := ascii_of_nat (48 + n).

Definition hex_char (n : nat) : ascii :=
  if Nat.ltb n 10 then ascii_of_nat (48 + n) else ascii_of_nat (87 + n).

(** Decimal rendering of a byte value (at most three digits). *)
Definition decimal (n : nat) : string :=
  String.append
    (if Nat.leb 100 n then String (digit_char (n / 100)) EmptyString else EmptyString)
    (String.append
      (if Nat.leb 10 n then String (digit_char (n / 10 mod 10)) EmptyString else EmptyString)
      (String (digit_char (n mod 10)) EmptyString)).

Definition bn (b : Byte.byte) : nat := Byte.to_nat b.

(** [appendHex]: hexadecimal digits of a 16-bit group, no leading zeros. *)
Definition appendHex (dst : string) (i : N) : string :=
  if N.eqb i 0 then String.append dst "0"
  else fold_left (fun acc j =>
         let v := N.shiftr i (4 * j) in
         if N.ltb 0 v then String.append acc (String (hex_char (N.to_nat (N.land v 15))) EmptyString)
         else acc)
       [7; 6; 5; 4; 3; 2; 1; 0]%N dst.

(** [hexString]: two lowercase hexadecimal digits per byte. *)
Definition hexString (ip : list Byte.byte) : string :=
  fold_left (fun acc b => String.append acc
               (String (hex_char (bn b / 16)) (String (hex_char (bn b mod 16)) EmptyString)))
            ip EmptyString.

Definition v4InV6Prefix : list nat := [0; 0; 0; 0; 0; 0; 0; 0; 0; 0; 255; 255].

(** [ip.To4()]. *)
Definition To4 (ip : list Byte.byte) : option (list Byte.byte) :=
  if Nat.eqb (length ip) 4 then Some ip
  else if Nat.eqb (length ip) 16 && bool_decide (map bn (take 12 ip) = v4InV6Prefix)
  then Some (drop 12 ip) else None.

Definition dotted (p4 : list Byte.byte) : string :=
  match p4 with
  | [a; b; c; d] =>
      String.append (decimal (bn a)) (String.append "."
        (String.append (decimal (bn b)) (String.append "."
          (String.append (decimal (bn c)) (String.append "." (decimal (bn d)))))))
  | _ => EmptyString
  end.

(** The 16-bit group starting at group index [g]. *)
Definition group (p : list Byte.byte) (g : nat) : N :=
  Byte.to_N (default Byte.x00 (p !! (2 * g))) * 256 + Byte.to_N (default Byte.x00 (p !! (2 * g + 1))).

(** [for j < IPv6len && p[j] == 0 && p[j+1] == 0 { j += 2 }], in groups. *)
Fixpoint zero_run_end (fuel : nat) (p : list Byte.byte) (j : nat) : nat :=
  match fuel with
  | O => j
  | S f => if Nat.ltb j 8 && N.eqb (group p j) 0 then zero_run_end f p (S j) else j
  end.

(** "Find longest run of zeros", in group indices; [e0 = e1 = -1]
    initially is represented by [None]. *)
Fixpoint longest_zero_run (fuel : nat) (p : list Byte.byte) (i : nat) (e : option (nat * nat))
    : option (nat * nat) :=
  match fuel with
  | O => e
  | S f =>
      if Nat.ltb i 8 then
        let j := zero_run_end 8 p i in
        let len := match e with Some (e0, e1) => e1 - e0 | None => 0 end in
        if Nat.ltb i j && Nat.ltb len (j - i) then longest_zero_run f p (S j) (Some (i, j))
        else longest_zero_run f p (S i) e
      else e
  end.

(** "Print with possible :: in place of run of zeros". *)
Fixpoint print_v6 (fuel : nat) (p : list Byte.byte) (e : option (nat * nat)) (i : nat) (b : string)
    : string :=
  match fuel with
  | O => b
  | S f =>
      if Nat.ltb i 8 then
        match e with
        | Some (e0, e1) =>
            if Nat.eqb i e0 then
              let b := String.append b "::" in
              if Nat.leb 8 e1 then b
              else print_v6 f p e (S e1) (appendHex b (group p e1))
            else
              let b := if Nat.ltb 0 i then String.append b ":" else b in
              print_v6 f p e (S i) (appendHex b (group p i))
        | None =>
            let b := if Nat.ltb 0 i then String.append b ":" else b in
            print_v6 f p e (S i) (appendHex b (group p i))
        end
      else b
  end.

Definition IP_String (ip : list Byte.byte) : string :=
  if Nat.eqb (length ip) 0 then "<nil>"
  else match To4 ip with
  | Some p4 => dotted p4
  | None =>
      if negb (Nat.eqb (length ip) 16) then String.append "?" (hexString ip)
      else
        let e := longest_zero_run 8 ip 0 None in
        (* "::" must not shorten a single 16-bit zero field *)
        let e := match e with Some (e0, e1) => if Nat.leb (e1 - e0) 1 then None else e
                              | None => None end in
        print_v6 8 ip e 0 EmptyString
  end.

(* ------------------------------------------------------------------ *)
(** ** getHost: the reverse-resolution cache (the TTL version) *)

Record hostItem := {
  host : string;
  timestamp : Z   (* nanoseconds *)
}.

Definition Hour : Z := 3600 * 1000000000.

(** [dec.resolver.LookupAddr(ctx, ip)]: [None] when it returns an error,
    otherwise the host names. *)
Definition Resolver := string -> option (list string).

Definition lookup_ok (r : option (list string)) : option string :=
  match r with
  | Some (h0 :: _) => if String.eqb h0 "" then None else Some h0
  | _ => None
  end.

(** [addr] is [None] for a [nil] slice. Returns the host and the cache
    [dec.ipToHost] after the call. *)
Definition getHost (ipToHost : gmap string hostItem) (now : Z) (resolver : Resolver)
    (addr : option (list Byte.byte)) : string * gmap string hostItem :=
  match addr with
  | Some bytes =>
      let ip := IP_String bytes in
      let prior := ipToHost !! ip in
      let refresh := match prior with
                     | None => true
                     | Some h => Z.ltb (timestamp h + Hour) now
                     end in
      if refresh then
        let h := match lookup_ok (resolver ip), prior with
                 | Some name, _ => {| host := name; timestamp := now |}
                 | None, None => {| host := ip; timestamp := now |}
                 | None, Some h => h
                 end in
        (host h, <[ip := h]> ipToHost)
      else
        match prior with
        | Some h => (host h, ipToHost)
        | None => ("", ipToHost)   (* unreachable: refresh is true *)
        end
  | None => ("", ipToHost)
  end.

(* ------------------------------------------------------------------ *)
(** ** Notions used by the properties *)

(** A record as produced by [dns.Msg.Unpack]: a record whose header type
    is CNAME is a [*dns.CNAME] value. *)
Definition rr_wf (rr : RR) : Prop :=
  Rrtype (Header rr) = TypeCNAME -> exists h t, rr = CNAME h t.

Definition init_proc (bs0 : gset string) : CnameProcessor :=
  {| blockedCnames := ∅; blockedDomains := bs0 |}.

(** States reachable from [NewCnameProcessor] (an empty CloakMap and the
    composed BlockSet [bs0]) by processing commands. *)
Inductive reachable (bs0 : gset string) : CnameProcessor -> Prop :=
  | reach_init : reachable bs0 (init_proc bs0)
  | reach_step fuel p c p' s :
      reachable bs0 p -> processCommand fuel p c = Done p' s -> reachable bs0 p'.

Definition keys_blocked (p : CnameProcessor) : Prop :=
  forall q t, blockedCnames p !! q = Some t -> q ∈ blockedDomains p.

Definition targets_blocked (p : CnameProcessor) : Prop :=
  forall q t, blockedCnames p !! q = Some t -> t ∈ blockedDomains p.

Definition cloak_msg : Message :=
  {| dnsMessage := Some {| Question_ := [{| Name := "a." |}]; Answer := [cname_rr "a." "c."] |} |}.

(** Every cached host name is non-empty (true of the empty cache built by
    [NewDnsTapDecoder] and kept by [getHost]). *)
Definition cache_wf (ipToHost : gmap string hostItem) : Prop :=
  forall ip h, ipToHost !! ip = Some h -> host h <> "".

Definition no_resolver : Resolver := fun _ => None.

Definition stale_cache : gmap string hostItem :=
  <["10.0.0.1" := {| host := "printer.lan."; timestamp := 0 |}]> ∅.

(** One step of the walk: the name [check] leads to (the loop goes on with
    or stops at) [cname], unless the lookup is empty. *)
Definition next_name (cn : gmap string string) (check : string) : option string :=
  let cname := map_get cn check in
  if Nat.eqb (String.length cname) 0 then None else Some cname.

(** The first [n] names of the path from [q] in the local CNAME mapping
    (fewer when the path ends). *)
Fixpoint chain_path (cn : gmap string string) (q : string) (n : nat) : list string :=
  match n with
  | O => []
  | S n' => q :: match next_name cn q with Some y => chain_path cn y n' | None => [] end
  end.

(** The path from [q] never visits a name twice. *)
Definition acyclic_from (cn : gmap string string) (q : string) : Prop :=
  forall n, NoDup (chain_path cn q n).

Definition cycle_msg : Message :=
  {| dnsMessage := Some {| Question_ := [{| Name := "a." |}];
                           Answer := [cname_rr "a." "b."; cname_rr "b." "a."] |} |}.

Definition proc_empty : CnameProcessor := {| blockedCnames := ∅; blockedDomains := ∅ |}.

Definition quote_str : string := String quote_char EmptyString.

Definition unblock_msg (e : string * string) : UnboundCommandMessage :=
  {| cmd := ZoneRemove; domain := e.1 |}.

Definition del_step (nb : gset string) (acc : gmap string string) (e : string * string) : gmap string string :=
  if decide (e.2 ∈ nb) then acc else delete e.1 acc.

(* ------------------------------------------------------------------ *)
(** ** The reload with an explicit iteration order *)

(** [processUpdateLists] with the range over [*proc.blockedCnames] visiting
    the entries in the order [order]: Go leaves the order of a map range
    unspecified, and [processUpdateLists] above fixes one of them. *)
Definition processUpdateLists_in (order : list (string * string)) (proc : CnameProcessor)
    (newBlocked : gset string) : Res CnameProcessor :=
  let '(cm, sent) := fold_left (update_entry newBlocked) order (blockedCnames proc, []) in
  Done {| blockedCnames := cm; blockedDomains := newBlocked |} sent.

(* ------------------------------------------------------------------ *)
(** ** NewCnameProcessor and the HTTP update handler *)

(** The three list files as the process finds them on disk (the paths
    [blockedFile], [whitelistFile], [blacklistFile] of the processor). *)
Record ListFiles := {
  blockedFile : option (list string);
  whitelistFile : option (list string);
  blacklistFile : option (list string)
}.

(** The engine state built by [NewCnameProcessor]; [None] is the
    [log.Fatal] on a [getBlockedDomains] error. *)
Definition NewCnameProcessor (files : ListFiles) : option CnameProcessor :=
  match getBlockedDomains (blockedFile files) (whitelistFile files) (blacklistFile files) with
  | Some blockedDomains => Some {| blockedCnames := ∅; blockedDomains := blockedDomains |}
  | None => None
  end.

Inductive UpdateCommand :=
  | UpdateAllCommand
  | UpdateBlockCommand
  | UpdateWhiteCommand
  | UpdateBlackCommand.

Definition MethodPost : string := "POST".
Definition StatusOK : Z := 200.
Definition StatusMethodNotAllowed : Z := 405.
Definition StatusInternalServerError : Z := 500.

(** [updateHandler]: the HTTP status written and the commands put on
    [proc.commands]. *)
Definition updateHandler (files : ListFiles) (method : string) (command : UpdateCommand)
    : Z * list Command :=
  if String.eqb method MethodPost then
    match getBlockedDomains (blockedFile files) (whitelistFile files) (blacklistFile files) with
    | None => (StatusInternalServerError, [])
    | Some blockedDomains => (StatusOK, [UpdateListsCommand blockedDomains])
    end
  else (StatusMethodNotAllowed, []).

(* ------------------------------------------------------------------ *)
(** ** The decoder loop [DnsTapDecoder.Run] (the TTL version) *)

(** [dnstap.Message_Type]; [OtherType] is a value outside the twelve
    listed, which takes the [default] branch. *)
Inductive DnstapMessageType :=
  | Message_AUTH_QUERY | Message_AUTH_RESPONSE
  | Message_RESOLVER_QUERY | Message_RESOLVER_RESPONSE
  | Message_CLIENT_QUERY | Message_CLIENT_RESPONSE
  | Message_FORWARDER_QUERY | Message_FORWARDER_RESPONSE
  | Message_STUB_QUERY | Message_STUB_RESPONSE
  | Message_TOOL_QUERY | Message_TOOL_RESPONSE
  | OtherType (n : Z).

(** The fields of [dnstap.Message] read by the decoder; [None] is a [nil]
    pointer or slice. Seconds are [uint64], nanoseconds [uint32]. *)
Record DnstapMessage := {
  Type_ : DnstapMessageType;
  QueryAddress : option (list Byte.byte);
  QueryTimeSec : option Z;
  QueryTimeNsec : option Z;
  QueryMessage : option (list Byte.byte);
  ResponseTimeSec : option Z;
  ResponseTimeNsec : option Z;
  ResponseMessage : option (list Byte.byte)
}.

Definition Dnstap_MESSAGE : Z := 1.

(** [dnstap.Dnstap]: its [Type] and its [Message] pointer. *)
Record Dnstap := {
  dt_Type : Z;
  dt_Message : option DnstapMessage
}.

(** The [Message] of processor.go with all its fields; the CNAME engine
    reads only [dnsMessage] (the record [Message] above). *)
Record DecodedMessage := {
  msg_timestamp : Z;
  msg_dnstapMessage : DnstapMessage;
  msg_dnsMessage : option Msg;
  msg_host : string
}.

Definition to_Message (m : DecodedMessage) : Message := {| dnsMessage := msg_dnsMessage m |}.

(** A frame read from the decoder channel, with the readings of
    [time.Now()] made while it is decoded: the one of [getTime] and the
    one of [getHost]. *)
Record Frame := {
  frame_bytes : list Byte.byte;
  now_time : Z;
  now_host : Z
}.

(** [int64(x)] of a [uint64]. *)
Definition to_int64 (x : Z) : Z := if Z.ltb x (2 ^ 63) then x else x - 2 ^ 64.

(** [getTime], as nanoseconds since the epoch. *)
Definition getTime (sec nsec : option Z) (now : Z) : Z :=
  match sec, nsec with
  | Some s, Some ns => to_int64 s * 1000000000 + ns
  | _, _ => now
  end.

(** How [Run] ends: the frame channel closed (the processors' channels
    are then closed), [log.Fatalf] (the process exits), or a [nil]
    dereference. Each carries the queues of the processors, in the order
    of [dec.processors], with what was sent to them. *)
Inductive RunOutcome :=
  | Finished (queues : list (list DecodedMessage)) (ipToHost : gmap string hostItem)
  | Fatal (queues : list (list DecodedMessage))
  | RunPanicked (queues : list (list DecodedMessage)).

Section Decoder.

(** [proto.Unmarshal] ([None] on error) and [dns.Msg.Unpack]. *)
Variable unmarshal : list Byte.byte -> option Dnstap.
Variable unpack : list Byte.byte -> option Msg.
Variable resolver : Resolver.

Definition getDnsMsg (msg : option (list Byte.byte)) : option Msg :=
  match msg with
  | Some b => unpack b
  | None => None
  end.

(** "decode the dns info": the timestamp and the parsed message. *)
Definition decode_info (dm : DnstapMessage) (now : Z) : Z * option Msg :=
  match Type_ dm with
  | Message_AUTH_QUERY | Message_CLIENT_QUERY | Message_FORWARDER_QUERY
  | Message_RESOLVER_QUERY | Message_STUB_QUERY | Message_TOOL_QUERY =>
      (getTime (QueryTimeSec dm) (QueryTimeNsec dm) now, getDnsMsg (QueryMessage dm))
  | Message_AUTH_RESPONSE | Message_CLIENT_RESPONSE | Message_FORWARDER_RESPONSE
  | Message_RESOLVER_RESPONSE | Message_STUB_RESPONSE | Message_TOOL_RESPONSE =>
      (getTime (ResponseTimeSec dm) (ResponseTimeNsec dm) now, getDnsMsg (ResponseMessage dm))
  | OtherType _ => (getTime None None now, getDnsMsg None)
  end.

(** [for frame := range dec.channel]; [queues] are the channels of
    [dec.processors], [ipToHost] the cache. *)
Fixpoint Run (queues : list (list DecodedMessage)) (ipToHost : gmap string hostItem)
    (frames : list Frame) : RunOutcome :=
  match frames with
  | [] => Finished queues ipToHost
  | f :: rest =>
      match unmarshal (frame_bytes f) with
      | None => Fatal queues
      | Some dt =>
          if Z.eqb (dt_Type dt) Dnstap_MESSAGE then
            match dt_Message dt with
            | None => RunPanicked queues   (* *dnstapMessage.Type on nil *)
            | Some dnstapMessage =>
                let '(timestamp, dnsMsg) := decode_info dnstapMessage (now_time f) in
                let '(host, ipToHost') :=
                  getHost ipToHost (now_host f) resolver (QueryAddress dnstapMessage) in
                let message := {| msg_timestamp := timestamp;
                                  msg_dnstapMessage := dnstapMessage;
                                  msg_dnsMessage := dnsMsg;
                                  msg_host := host |} in
                Run ((fun q => q ++ [message]) <$> queues) ipToHost' rest
            end
          else Run queues ipToHost rest
      end
  end.

(** The dnstap messages of the frames that carry one, in order (a notion
    for the properties). *)
Definition message_frames (frames : list Frame) : list DnstapMessage :=
  omap (fun f => match unmarshal (frame_bytes f) with
                 | Some dt => if Z.eqb (dt_Type dt) Dnstap_MESSAGE then dt_Message dt else None
                 | None => None
                 end) frames.

(** A frame that unmarshals, and carries a message when it has the
    MESSAGE type (a notion for the properties). *)
Definition frame_ok (f : Frame) : Prop :=
  exists dt, unmarshal (frame_bytes f) = Some dt /\
             (dt_Type dt = Dnstap_MESSAGE -> dt_Message dt <> None).

End Decoder.

(* ------------------------------------------------------------------ *)
(** ** More notions used by the properties *)

(** The zones of an Unbound that has applied the commands [sent] in
    order: [ZoneAdd] adds its zone, [ZoneRemove] removes it. *)
Definition apply_zone (z : gset string) (m : UnboundCommandMessage) : gset string :=
  match cmd m with
  | ZoneAdd => z ∪ {[domain m]}
  | ZoneRemove => z ∖ {[domain m]}
  end.

Definition apply_zones (z : gset string) (sent : list UnboundCommandMessage) : gset string :=
  fold_left apply_zone sent z.

(** The (owner, target) pairs of the records with the CNAME header type,
    in answer order. *)
Definition cname_pairs (answers : list RR) : list (string * string) :=
  omap (fun rr => match rr with
                  | CNAME h t => if N.eqb (Rrtype h) TypeCNAME then Some (Hdr_Name h, t) else None
                  | OtherRR _ => None
                  end) answers.

(** A sample dnstap query message and frame decoder: the empty frame
    does not unmarshal, every other one is a MESSAGE frame carrying the
    sample message. *)
Definition sample_dnstap_message : DnstapMessage :=
  {| Type_ := Message_CLIENT_QUERY;
     QueryAddress := Some [Byte.x0a; Byte.x00; Byte.x00; Byte.x01];
     QueryTimeSec := Some 1%Z; QueryTimeNsec := Some 0%Z; QueryMessage := None;
     ResponseTimeSec := None; ResponseTimeNsec := None; ResponseMessage := None |}.

Definition sample_unmarshal (b : list Byte.byte) : option Dnstap :=
  match b with
  | [] => None
  | _ => Some {| dt_Type := Dnstap_MESSAGE; dt_Message := Some sample_dnstap_message |}
  end.

Definition sample_unpack (b : list Byte.byte) : option Msg := None.

Definition good_frame : Frame := {| frame_bytes := [Byte.x01]; now_time := 5%Z; now_host := 5%Z |}.
Definition bad_frame : Frame := {| frame_bytes := []; now_time := 5%Z; now_host := 5%Z |}.

(** The 16-byte IPv4-mapped form [::ffff:a.b.c.d] of a 4-byte address. *)
Definition v4mapped (b : list Byte.byte) : list Byte.byte :=
  [Byte.x00; Byte.x00; Byte.x00; Byte.x00; Byte.x00; Byte.x00;
   Byte.x00; Byte.x00; Byte.x00; Byte.x00; Byte.xff; Byte.xff] ++ b.

Definition insert_pair (m : gmap string string) (e : string * string) : gmap string string :=
  <[e.1 := e.2]> m.

(** The line starts with a character of [[a-z0-9]] (a notion for the
    properties). *)
Definition starts_L (line : string) : bool :=
  match line with
  | String c _ => is_L c
  | EmptyString => false
  end.

(* ================================================================== *)
(** * Properties *)

Section ResLemmas.

Lemma bind_Done {A B} (a : A) (s : list UnboundCommandMessage) (f : A -> Res B) :
  (Done a s ≫= f) = match f a with
                    | Done b s' => Done b (s ++ s')
                    | Panicked => Panicked
                    | OutOfFuel => OutOfFuel
                    end.
Proof. reflexivity. Qed.

Lemma bind_ret {A B} (a : A) (f : A -> Res B) : (mret a ≫= f) = f a.
Proof. cbn. destruct (f a); reflexivity. Qed.

Lemma bind_assoc {A B C} (m : Res A) (f : A -> Res B) (g : B -> Res C) :
  ((m ≫= f) ≫= g) = (m ≫= fun a => f a ≫= g).
Proof.
  destruct m as [a s| |]; cbn; [|reflexivity|reflexivity].
  destruct (f a) as [b s'| |]; cbn; [|reflexivity|reflexivity].
  destruct (g b) as [c s''| |]; [|reflexivity|reflexivity].
  by rewrite app_assoc.
Qed.

Lemma bind_ext {A B} (m : Res A) (f g : A -> Res B) :
  (forall a, f a = g a) -> (m ≫= f) = (m ≫= g).
Proof. intros H. destruct m as [a s| |]; cbn; [rewrite H|..]; reflexivity. Qed.

Lemma bind_ret_r {A} (m : Res A) : (m ≫= mret) = m.
Proof. destruct m as [a s| |]; cbn; [rewrite app_nil_r|..]; reflexivity. Qed.

End ResLemmas.

(** Walking a. -> b. -> c. with c. blocked and b. not blocked stops at c.
    in the second round. *)
Lemma walk_two_hops (fuel : nat) (bs : gset string) (cn : gmap string string) :
  (2 ≤ fuel)%nat -> cn !! "a." = Some "b." -> cn !! "b." = Some "c." ->
  "b." ∉ bs -> "c." ∈ bs ->
  walk fuel bs cn "a." = Done (Some "c.") [].
Proof.
  intros Hf Ha Hb Hnb Hc.
  destruct fuel as [|[|f]]; [lia|lia|].
  cbn [walk]. unfold map_get. rewrite Ha. cbn -[decide].
  rewrite decide_False by exact Hnb. rewrite Hb. cbn -[decide].
  rewrite decide_True by exact Hc. reflexivity.
Qed.

(** C1: chain-walk correctness and idempotence. For a record whose first
    question is "a." and whose CNAME answers map a. to b. and b. to c.,
    with c. in the BlockSet and neither a. nor b. in it, processing sends
    exactly one [ZoneAdd "a."] (the Block command), records a. -> c. in
    the CloakMap and adds a. to the BlockSet; processing the same record
    again changes nothing and sends nothing. *)
Theorem chain_walk_blocks_once (fuel : nat) (proc : CnameProcessor) (message : Message)
    (m : Msg) (q : Question) (qs : list Question) (cn : gmap string string) :
  (2 ≤ fuel)%nat ->
  dnsMessage message = Some m ->
  Question_ m = q :: qs -> Name q = "a." ->
  build_chain (Answer m) None = Done (Some cn) [] ->
  cn !! "a." = Some "b." -> cn !! "b." = Some "c." ->
  "c." ∈ blockedDomains proc -> "a." ∉ blockedDomains proc -> "b." ∉ blockedDomains proc ->
  let proc' := {| blockedCnames := <["a." := "c."]> (blockedCnames proc);
                  blockedDomains := {["a."]} ∪ blockedDomains proc |} in
  processDnstapMessage fuel proc message = Done proc' [{| cmd := ZoneAdd; domain := "a." |}] /\
  processDnstapMessage fuel proc' message = Done proc' [].
Proof.
  intros Hf Hm Hq Hn Hb Ha Hbc Hc Hna Hnb proc'.
  assert (Hlen : Nat.ltb 0 (length (Answer m)) = true).
  { destruct (Answer m); [discriminate|reflexivity]. }
  unfold processDnstapMessage. rewrite Hm, Hlen, Hq, Hn. split.
  - rewrite decide_False by exact Hna. rewrite Hb, bind_Done.
    rewrite (walk_two_hops fuel _ cn Hf Ha Hbc Hnb Hc), bind_Done. reflexivity.
  - rewrite decide_True by (cbn; set_solver). reflexivity.
Qed.

(** The C1 scenario on a concrete record (with an extra A record). *)
Lemma chain_walk_blocks_once_witness :
  let proc' := {| blockedCnames := <["a." := "c."]> (blockedCnames proc_c);
                  blockedDomains := {["a."]} ∪ blockedDomains proc_c |} in
  processDnstapMessage 2 proc_c chain_msg = Done proc' [{| cmd := ZoneAdd; domain := "a." |}] /\
  processDnstapMessage 2 proc' chain_msg = Done proc' [].
Proof.
  apply (chain_walk_blocks_once 2 proc_c chain_msg
           {| Question_ := [{| Name := "a." |}];
              Answer := [cname_rr "a." "b."; cname_rr "b." "c."; a_rr "c."] |}
           {| Name := "a." |} [] (<["b." := "c."]> (<["a." := "b."]> ∅)));
    try reflexivity; try lia; vm_compute; try reflexivity; try (intros H; vm_compute in H; discriminate).
Defined.

Lemma processCommands_app (fuel : nat) (proc : CnameProcessor) (pre post : list Command) :
  processCommands fuel proc (pre ++ post) =
  (processCommands fuel proc pre ≫= fun p => processCommands fuel p post).
Proof.
  revert proc. induction pre as [|c pre IH]; intros proc; cbn [app processCommands].
  - by rewrite bind_ret.
  - rewrite bind_assoc. apply bind_ext. intros p. apply IH.
Qed.

Lemma processUpdateLists_blocked (proc p : CnameProcessor) (nb : gset string)
    (s : list UnboundCommandMessage) :
  processUpdateLists proc nb = Done p s -> blockedDomains p = nb.
Proof.
  unfold processUpdateLists.
  destruct (fold_left _ _ _) as [cm sent]. intros [= <- _]. reflexivity.
Qed.

(** C2: the command loop consumes the channel one command at a time in
    channel order. A command [c] is run on the state reached by the
    commands enqueued before it, and only then are the later commands run;
    so a [DnsTapCommand] enqueued just before an [UpdateListsCommand] is
    evaluated with the BlockSet of the state before the reload, and one
    enqueued just after is evaluated in a state whose BlockSet is the new
    set. *)
Theorem commands_processed_in_order (fuel : nat) :
  (forall proc pre c post,
     processCommands fuel proc (pre ++ c :: post) =
     ((processCommands fuel proc pre ≫= fun p => processCommand fuel p c)
        ≫= fun p => processCommands fuel p post)) /\
  (forall proc message nb,
     processCommands fuel proc [DnsTapCommand message; UpdateListsCommand nb] =
     (processDnstapMessage fuel proc message ≫= fun p => processUpdateLists p nb)) /\
  (forall proc nb message,
     processCommands fuel proc [UpdateListsCommand nb; DnsTapCommand message] =
     (processUpdateLists proc nb ≫= fun p => processDnstapMessage fuel p message)) /\
  (forall proc nb p s, processUpdateLists proc nb = Done p s -> blockedDomains p = nb).
Proof.
  split; [|split; [|split]].
  - intros proc pre c post.
    rewrite processCommands_app, bind_assoc. apply bind_ext. intros p.
    cbn [processCommands]. reflexivity.
  - intros proc message nb. cbn [processCommands processCommand].
    apply bind_ext. intros p. apply bind_ret_r.
  - intros proc nb message. cbn [processCommands processCommand].
    apply bind_ext. intros p. apply bind_ret_r.
  - intros proc nb p s. apply processUpdateLists_blocked.
Qed.

Section UpdateLists.

Variable nb : gset string.

Lemma fold_update_entry (l : list (string * string)) cm sent :
  fold_left (update_entry nb) l (cm, sent) =
  (fold_left (del_step nb) l cm, sent ++ (unblock_msg <$> filter (fun e => e.2 ∉ nb) l)).
Proof.
  revert cm sent. induction l as [|[q c] l IH]; intros cm sent; cbn.
  - by rewrite app_nil_r.
  - unfold del_step at 2; cbn [fst snd].
    destruct (decide (c ∈ nb)) as [Hc|Hc].
    + rewrite (decide_False (P := c ∉ nb)) by tauto. apply IH.
    + rewrite (decide_True (P := c ∉ nb)) by exact Hc. rewrite IH. cbn.
      by rewrite <- app_assoc.
Qed.

Lemma fold_del_lookup (l : list (string * string)) cm k :
  fold_left (del_step nb) l cm !! k =
  if decide (k ∈ (filter (fun e => e.2 ∉ nb) l).*1) then None else cm !! k.
Proof.
  revert cm. induction l as [|[q c] l IH]; intros cm; cbn.
  - rewrite decide_False; [reflexivity|]. intros H. inversion H.
  - rewrite IH. unfold del_step at 1; cbn [fst snd].
    destruct (decide (c ∈ nb)) as [Hc|Hc].
    + rewrite (decide_False (P := c ∉ nb)) by tauto. reflexivity.
    + rewrite (decide_True (P := c ∉ nb)) by exact Hc. cbn.
      destruct (decide (k ∈ (filter (fun e => e.2 ∉ nb) l).*1)) as [Hk|Hk].
      * rewrite decide_True; [reflexivity|]. by right.
      * destruct (decide (k = q)) as [->|Hkq].
        -- rewrite decide_True by left. by rewrite lookup_delete_eq.
        -- rewrite decide_False. { by rewrite lookup_delete_ne by congruence. }
           intros H. inversion H; subst; tauto.
Qed.

Lemma NoDup_unblock (l : list (string * string)) :
  NoDup l.*1 -> NoDup ((unblock_msg <$> filter (fun e => e.2 ∉ nb) l)).
Proof.
  induction l as [|[q c] l IH]; intros Hnd; cbn.
  - constructor.
  - inversion Hnd as [|? ? Hq Hl]; subst.
    destruct (decide (c ∉ nb)); [|auto]. cbn. constructor; [|auto].
    intros Hin. apply list_elem_of_fmap in Hin as [[q' c'] [Heq Hin]].
    unfold unblock_msg in Heq. cbn in Heq. injection Heq as ->.
    apply list_elem_of_filter in Hin as [_ Hin]. apply Hq.
    apply list_elem_of_fmap. exists (q', c'). split; [reflexivity|exact Hin].
Qed.

End UpdateLists.

Lemma removed_keys_spec (cm : gmap string string) (nb : gset string) (k : string) :
  k ∈ (filter (fun e : string * string => e.2 ∉ nb) (map_to_list cm)).*1 <->
  exists t, cm !! k = Some t /\ t ∉ nb.
Proof.
  rewrite list_elem_of_fmap. split.
  - intros [[k' t] [-> Hin]]. apply list_elem_of_filter in Hin as [Ht Hin].
    apply elem_of_map_to_list in Hin. exists t. auto.
  - intros [t [Hk Ht]]. exists (k, t). split; [reflexivity|].
    apply list_elem_of_filter. split; [exact Ht|]. by apply elem_of_map_to_list.
Qed.

(** C4: reload cleanup. Processing [UpdateListsCommand nb] removes from the
    CloakMap exactly the entries whose target is not in [nb], keeps every
    other entry unchanged, sends one [ZoneRemove qname] (the Unblock
    command) per removed entry and nothing else, and makes [nb] itself the
    BlockSet. In particular, from the CloakMap {a. -> c.} and an [nb]
    without c., exactly one [ZoneRemove "a."] is sent and a. is removed. *)
Theorem reload_unblocks_removed (proc : CnameProcessor) (nb : gset string) :
  (exists cm' sent,
     processUpdateLists proc nb = Done {| blockedCnames := cm'; blockedDomains := nb |} sent /\
     (forall q t, blockedCnames proc !! q = Some t -> t ∉ nb -> cm' !! q = None) /\
     (forall q t, blockedCnames proc !! q = Some t -> t ∈ nb -> cm' !! q = Some t) /\
     (forall q, blockedCnames proc !! q = None -> cm' !! q = None) /\
     NoDup sent /\
     (forall x, x ∈ sent <-> exists q t, x = {| cmd := ZoneRemove; domain := q |} /\
                                       blockedCnames proc !! q = Some t /\ t ∉ nb)) /\
  (blockedCnames proc = {["a." := "c."]} -> "c." ∉ nb ->
   processUpdateLists proc nb =
   Done {| blockedCnames := ∅; blockedDomains := nb |} [{| cmd := ZoneRemove; domain := "a." |}]).
Proof.
  split.
  - unfold processUpdateLists. rewrite fold_update_entry. cbn [app].
    eexists _, _. split; [reflexivity|].
    set (cm := blockedCnames proc).
    split; [|split; [|split; [|split]]].
    + intros q t Hq Ht. rewrite fold_del_lookup, decide_True; [reflexivity|].
      apply removed_keys_spec. eauto.
    + intros q t Hq Ht. rewrite fold_del_lookup, decide_False; [exact Hq|].
      rewrite removed_keys_spec. intros [t' [Hq' Ht']]. congruence.
    + intros q Hq. rewrite fold_del_lookup.
      destruct (decide _); [reflexivity|exact Hq].
    + apply NoDup_unblock, NoDup_fst_map_to_list.
    + intros x. rewrite list_elem_of_fmap. split.
      * intros [[q t] [-> Hin]]. apply list_elem_of_filter in Hin as [Ht Hin].
        apply elem_of_map_to_list in Hin. exists q, t. auto.
      * intros (q & t & -> & Hq & Ht). exists (q, t). split; [reflexivity|].
        apply list_elem_of_filter. split; [exact Ht|]. by apply elem_of_map_to_list.
  - intros Hcm Hc. unfold processUpdateLists. rewrite Hcm, map_to_list_singleton.
    cbn. rewrite decide_False by exact Hc. by rewrite delete_singleton_eq.
Qed.

Lemma build_chain_no_panic (answers : list RR) (cnames : option (gmap string string)) :
  Forall rr_wf answers -> build_chain answers cnames <> Panicked.
Proof.
  revert cnames. induction answers as [|rr rest IH]; intros cnames Hwf; cbn; [discriminate|].
  inversion Hwf as [|? ? Hrr Hrest]; subst.
  destruct (N.eqb_spec (Rrtype (Header rr)) TypeCNAME) as [Ht|Ht].
  - destruct (Hrr Ht) as (h & t & ->). apply IH, Hrest.
  - apply IH, Hrest.
Qed.

Lemma walk_no_panic fuel bs cn check : walk fuel bs cn check <> Panicked.
Proof.
  revert check. induction fuel as [|f IH]; intros check; cbn; [discriminate|].
  destruct (Nat.eqb _ 0); [discriminate|].
  destruct (decide _); [discriminate|apply IH].
Qed.

(** C10: [processDnstapMessage] reads [Question[0]] whenever the parsed
    message has answers, without checking the question section. A message
    with answers and no question makes the access go out of range (a Go
    panic); with at least one question (and well-formed records) the step
    never panics. *)
Theorem question_index_unchecked (fuel : nat) (proc : CnameProcessor) :
  (forall message m, dnsMessage message = Some m -> Answer m <> [] -> Question_ m = [] ->
     processDnstapMessage fuel proc message = Panicked) /\
  (forall message m, dnsMessage message = Some m -> Question_ m <> [] ->
     Forall rr_wf (Answer m) ->
     processDnstapMessage fuel proc message <> Panicked).
Proof.
  split.
  - intros message m Hm Ha Hq. unfold processDnstapMessage. rewrite Hm, Hq.
    destruct (Answer m); [congruence|reflexivity].
  - intros message m Hm Hq Hwf. unfold processDnstapMessage. rewrite Hm.
    destruct (Nat.ltb 0 _); [|discriminate].
    destruct (Question_ m) as [|q qs]; [congruence|].
    destruct (decide _); [discriminate|].
    pose proof (build_chain_no_panic (Answer m) None Hwf) as Hb.
    destruct (build_chain (Answer m) None) as [[cn|] s| |]; cbn; try congruence.
    pose proof (walk_no_panic fuel (blockedDomains proc) cn (Name q)) as Hw.
    destruct (walk fuel _ cn (Name q)) as [[c|] s'| |]; cbn; congruence.
Qed.

Example question_index_unchecked_example :
  processDnstapMessage 5 proc_c
    {| dnsMessage := Some {| Question_ := []; Answer := [cname_rr "a." "c."] |} |} = Panicked.
Proof. reflexivity. Qed.

(* ------------------------------------------------------------------ *)
(** ** CloakMap and BlockSet invariants *)

Lemma walk_hit_blocked fuel bs cn check c s :
  walk fuel bs cn check = Done (Some c) s -> c ∈ bs.
Proof.
  revert check. induction fuel as [|f IH]; intros check; cbn; [discriminate|].
  destruct (Nat.eqb _ 0); [discriminate|].
  destruct (decide _) as [Hin|_]; [intros [= <- _]; exact Hin|apply IH].
Qed.

Lemma processDnstapMessage_cases fuel p message p' s :
  processDnstapMessage fuel p message = Done p' s ->
  p' = p \/ exists q c, c ∈ blockedDomains p /\
    p' = {| blockedCnames := <[q := c]> (blockedCnames p);
            blockedDomains := {[q]} ∪ blockedDomains p |}.
Proof.
  unfold processDnstapMessage.
  destruct (dnsMessage message) as [m|]; [|intros [= <- _]; by left].
  destruct (Nat.ltb 0 _); [|intros [= <- _]; by left].
  destruct (Question_ m) as [|qq qs]; [discriminate|].
  destruct (decide _); [intros [= <- _]; by left|].
  destruct (build_chain (Answer m) None) as [[cn|] s0| |]; cbn; try discriminate;
    [|intros [= <- _]; by left].
  destruct (walk fuel _ cn _) as [[c|] s1| |] eqn:Hw; cbn; try discriminate.
  - intros [= <- _]. right. exists (Name qq), c. split; [|reflexivity].
    eapply walk_hit_blocked; exact Hw.
  - intros [= <- _]. by left.
Qed.

Lemma processUpdateLists_lookup p nb p' s q t :
  processUpdateLists p nb = Done p' s -> blockedCnames p' !! q = Some t ->
  blockedCnames p !! q = Some t /\ t ∈ nb.
Proof.
  unfold processUpdateLists. rewrite fold_update_entry. intros [= <- _]. cbn.
  rewrite fold_del_lookup.
  destruct (decide _) as [_|Hk]; [discriminate|]. intros Hq. split; [exact Hq|].
  destruct (decide (t ∈ nb)) as [?|Ht]; [assumption|].
  exfalso. apply Hk, removed_keys_spec. eauto.
Qed.

Lemma targets_blocked_step fuel p c p' s :
  targets_blocked p -> processCommand fuel p c = Done p' s -> targets_blocked p'.
Proof.
  intros Hinv. destruct c as [message|nb]; cbn.
  - intros Hp. destruct (processDnstapMessage_cases _ _ _ _ _ Hp) as [->|(q & c & Hc & ->)];
      [exact Hinv|].
    intros q' t'. cbn. destruct (decide (q' = q)) as [->|Hne].
    + rewrite lookup_insert_eq. intros [= <-]. set_solver.
    + rewrite lookup_insert_ne by congruence. intros Hq'. apply Hinv in Hq'. set_solver.
  - intros Hp q t Hq. pose proof (processUpdateLists_lookup _ _ _ _ _ _ Hp Hq) as [_ Ht].
    by rewrite (processUpdateLists_blocked _ _ _ _ Hp).
Qed.

Lemma keys_blocked_dnstap fuel p message p' s :
  keys_blocked p -> processDnstapMessage fuel p message = Done p' s -> keys_blocked p'.
Proof.
  intros Hinv Hp. destruct (processDnstapMessage_cases _ _ _ _ _ Hp) as [->|(q & c & Hc & ->)];
    [exact Hinv|].
  intros q' t'. cbn. destruct (decide (q' = q)) as [->|Hne].
  + intros _. set_solver.
  + rewrite lookup_insert_ne by congruence. intros Hq'. apply Hinv in Hq'. set_solver.
Qed.

(** C3 (as stated, refuted): from the BlockSet {c.}, the record a. -> c.
    adds a. to the CloakMap and the BlockSet; a reload with the same file
    set {c.} keeps the CloakMap entry (its target is still blocked) but
    swaps in {c.}, which does not contain the key a. *)
Lemma cloakmap_key_not_blocked_after_reload :
  ~ (forall p, reachable {["c."]} p -> keys_blocked p).
Proof.
  intros H.
  assert (Hr1 : reachable {["c."]}
                  {| blockedCnames := <["a." := "c."]> ∅;
                     blockedDomains := {["a."]} ∪ {["c."]} |}).
  { eapply (reach_step _ 1 (init_proc {["c."]}) (DnsTapCommand cloak_msg));
      [apply reach_init|reflexivity]. }
  assert (Hr2 : reachable {["c."]}
                  {| blockedCnames := <["a." := "c."]> ∅; blockedDomains := {["c."]} |}).
  { eapply (reach_step _ 1 _ (UpdateListsCommand {["c."]})); [exact Hr1|reflexivity]. }
  pose proof (H _ Hr2 "a." "c." eq_refl) as Ha. cbn in Ha.
  apply elem_of_singleton in Ha. discriminate.
Qed.

(** C3 (amended): in every reachable state, the target of every CloakMap
    entry is in the live BlockSet. The key property "every CloakMap key is
    in the BlockSet" holds initially and is preserved by every
    [DnsTapCommand] step (the key and its BlockSet membership are added
    together), but not by reloads, which swap in the new set without the
    keys added from traffic. *)
Theorem cloakmap_targets_blocked (bs0 : gset string) :
  (forall p, reachable bs0 p -> targets_blocked p) /\
  keys_blocked (init_proc bs0) /\
  (forall fuel p message p' s,
     keys_blocked p -> processDnstapMessage fuel p message = Done p' s -> keys_blocked p').
Proof.
  split; [|split].
  - intros p Hr. induction Hr as [|fuel p c p' s Hr IH Hstep].
    + intros q t. cbn. by rewrite lookup_empty.
    + eapply targets_blocked_step; eauto.
  - intros q t. cbn. by rewrite lookup_empty.
  - apply keys_blocked_dnstap.
Qed.

(* ------------------------------------------------------------------ *)
(** ** BlockSet composition *)

Lemma addKeys_in_union (order : list string) (dest : gset string) :
  addKeys_in order dest = dest ∪ list_to_set order.
Proof.
  revert dest. induction order as [|k l IH]; intros dest; cbn.
  - set_solver.
  - rewrite IH. set_solver.
Qed.

Lemma removeKeys_in_difference (order : list string) (dest : gset string) :
  removeKeys_in order dest = dest ∖ list_to_set order.
Proof.
  revert dest. induction order as [|k l IH]; intros dest; cbn.
  - set_solver.
  - rewrite IH. set_solver.
Qed.

(** C5: the composed BlockSet is (base ∪ supplementary) ∖ allow, where the
    base list is [blockedFile], the supplementary list [blacklistFile] and
    the allow list [whitelistFile]; the result does not depend on the
    order in which the range loops of [addKeys] and [removeKeys] visit the
    keys. *)
Theorem blockset_composition :
  (forall blockedFile whitelistFile blacklistFile base supp allow,
     loadRpzFile blockedFile = Some base ->
     loadRpzFile blacklistFile = Some supp ->
     loadRpzFile whitelistFile = Some allow ->
     getBlockedDomains blockedFile whitelistFile blacklistFile = Some ((base ∪ supp) ∖ allow)) /\
  (forall (order_supp order_allow : list string) (base supp allow : gset string),
     (forall x, x ∈ order_supp <-> x ∈ supp) ->
     (forall x, x ∈ order_allow <-> x ∈ allow) ->
     removeKeys_in order_allow (addKeys_in order_supp base) = (base ∪ supp) ∖ allow).
Proof.
  split.
  - intros bf wf blf base supp allow Hb Hs Ha. unfold getBlockedDomains.
    rewrite Ha, Hs, Hb. cbn. f_equal.
    unfold removeKeys, addKeys. rewrite removeKeys_in_difference, addKeys_in_union.
    rewrite !list_to_set_elements_L. reflexivity.
  - intros o1 o2 base supp allow H1 H2.
    rewrite removeKeys_in_difference, addKeys_in_union.
    apply set_eq. intros x. rewrite !elem_of_difference, !elem_of_union, !elem_of_list_to_set.
    rewrite H1, H2. tauto.
Qed.

(* ------------------------------------------------------------------ *)
(** ** The reverse-resolution cache *)

Lemma append_nonempty_l (x y : string) : x <> "" -> String.append x y <> "".
Proof. destruct x; cbn; [tauto|discriminate]. Qed.

Lemma append_nonempty_r (x y : string) : y <> "" -> String.append x y <> "".
Proof. destruct x; cbn; [tauto|discriminate]. Qed.

Lemma appendHex_grow (b : string) (n : N) : b <> "" -> appendHex b n <> "".
Proof.
  intros Hb. unfold appendHex. destruct (N.eqb n 0); [by apply append_nonempty_l|].
  generalize [7; 6; 5; 4; 3; 2; 1; 0]%N as l. intros l. revert b Hb.
  induction l as [|j l IH]; intros b Hb; cbn; [exact Hb|].
  apply IH. destruct (N.ltb 0 _); [by apply append_nonempty_l|exact Hb].
Qed.

Lemma appendHex_nonempty (b : string) (n : N) : appendHex b n <> "".
Proof.
  unfold appendHex. destruct (N.eqb n 0) eqn:Hn; [by apply append_nonempty_r|].
  change [7; 6; 5; 4; 3; 2; 1; 0]%N with ([7; 6; 5; 4; 3; 2; 1]%N ++ [0%N]).
  rewrite fold_left_app. cbn [fold_left].
  rewrite N.shiftr_0_r. apply N.eqb_neq in Hn.
  replace (N.ltb 0 n) with true by (symmetry; apply N.ltb_lt; lia).
  by apply append_nonempty_r.
Qed.

Lemma print_v6_grow fuel p e i b : b <> "" -> print_v6 fuel p e i b <> "".
Proof.
  revert i b. induction fuel as [|f IH]; intros i b Hb; cbn [print_v6]; [exact Hb|].
  destruct (Nat.ltb i 8); [|exact Hb].
  destruct e as [[e0 e1]|].
  - destruct (Nat.eqb i e0).
    + destruct (Nat.leb 8 e1); [by apply append_nonempty_l|].
      apply IH, appendHex_grow, append_nonempty_l, Hb.
    + apply IH, appendHex_grow. destruct (Nat.ltb 0 i); [by apply append_nonempty_l|exact Hb].
  - apply IH, appendHex_grow. destruct (Nat.ltb 0 i); [by apply append_nonempty_l|exact Hb].
Qed.

Lemma print_v6_start f p e : print_v6 (S f) p e 0 "" <> "".
Proof.
  cbn [print_v6]. replace (Nat.ltb 0 8) with true by reflexivity.
  replace (Nat.ltb 0 0) with false by reflexivity. destruct e as [[e0 e1]|].
  - destruct (Nat.eqb 0 e0); [destruct (Nat.leb 8 e1); [discriminate|]|];
      apply print_v6_grow, appendHex_nonempty.
  - apply print_v6_grow, appendHex_nonempty.
Qed.

Lemma decimal_nonempty n : decimal n <> "".
Proof. unfold decimal. apply append_nonempty_r, append_nonempty_r. discriminate. Qed.

Lemma To4_length ip p4 : To4 ip = Some p4 -> length p4 = 4%nat.
Proof.
  unfold To4. destruct (Nat.eqb_spec (length ip) 4) as [H|_]; [intros [= <-]; exact H|].
  destruct (Nat.eqb_spec (length ip) 16) as [H|_]; cbn; [|discriminate].
  destruct (bool_decide _); [|discriminate]. intros [= <-]. rewrite length_drop. lia.
Qed.

Lemma IP_String_nonempty (ip : list Byte.byte) : IP_String ip <> "".
Proof.
  unfold IP_String. destruct (Nat.eqb (length ip) 0); [discriminate|].
  destruct (To4 ip) as [p4|] eqn:H4.
  - apply To4_length in H4.
    destruct p4 as [|a [|b [|c [|d [|]]]]]; cbn in H4; try lia.
    cbn [dotted]. apply append_nonempty_l, decimal_nonempty.
  - destruct (negb _); [discriminate|]. apply print_v6_start.
Qed.

Lemma lookup_ok_nonempty r name : lookup_ok r = Some name -> name <> "".
Proof.
  unfold lookup_ok. destruct r as [[|h0 hs]|]; try discriminate.
  destruct (String.eqb_spec h0 ""); [discriminate|]. intros [= <-]. assumption.
Qed.

Lemma getHost_wf ipToHost now resolver bytes :
  cache_wf ipToHost ->
  (getHost ipToHost now resolver (Some bytes)).1 <> "" /\
  cache_wf (getHost ipToHost now resolver (Some bytes)).2.
Proof.
  intros Hwf. unfold getHost.
  set (ip := IP_String bytes).
  assert (Hip : ip <> "") by apply IP_String_nonempty.
  destruct (ipToHost !! ip) as [h|] eqn:Hprior.
  - destruct (Z.ltb _ now).
    + assert (Hh : host (match lookup_ok (resolver ip) with
                         | Some name => {| host := name; timestamp := now |}
                         | None => h end) <> "").
      { destruct (lookup_ok (resolver ip)) as [name|] eqn:Hl;
          [exact (lookup_ok_nonempty _ _ Hl)|exact (Hwf _ _ Hprior)]. }
      split; [exact Hh|]. intros ip' h'. cbn.
      destruct (decide (ip' = ip)) as [->|Hne].
      * rewrite lookup_insert_eq. intros [= <-]. exact Hh.
      * rewrite lookup_insert_ne by congruence. apply Hwf.
    + split; [exact (Hwf _ _ Hprior)|exact Hwf].
  - assert (Hh : host (match lookup_ok (resolver ip) with
                       | Some name => {| host := name; timestamp := now |}
                       | None => {| host := ip; timestamp := now |} end) <> "").
    { destruct (lookup_ok (resolver ip)) as [name|] eqn:Hl;
        [exact (lookup_ok_nonempty _ _ Hl)|exact Hip]. }
    split; [exact Hh|]. intros ip' h'. cbn.
    destruct (decide (ip' = ip)) as [->|Hne].
    * rewrite lookup_insert_eq. intros [= <-]. exact Hh.
    * rewrite lookup_insert_ne by congruence. apply Hwf.
Qed.

(** C6 (as stated, refuted): [getHost] tests [addr != nil], not
    emptiness. A present zero-length address renders as "<nil>", which is
    returned (a non-empty string) and cached. *)
Lemma getHost_empty_slice_not_empty :
  getHost ∅ 0 no_resolver (Some []) =
  ("<nil>", <["<nil>" := {| host := "<nil>"; timestamp := 0 |}]> ∅) /\
  "<nil>" <> "".
Proof. split; [reflexivity|discriminate]. Qed.

(** C6 (amended): on a cache whose entries are non-empty (every cache
    [getHost] builds from the initial empty one), the result is the empty
    string exactly when the address is absent ([nil]), and then the cache
    is unchanged; every present address, a zero-length one included,
    yields a non-empty host, and the cache stays well formed. *)
Theorem getHost_empty_iff_absent (ipToHost : gmap string hostItem) (now : Z)
    (resolver : Resolver) (addr : option (list Byte.byte)) :
  cache_wf ipToHost ->
  ((getHost ipToHost now resolver addr).1 = "" <-> addr = None) /\
  (addr = None -> (getHost ipToHost now resolver addr).2 = ipToHost) /\
  cache_wf (getHost ipToHost now resolver addr).2.
Proof.
  intros Hwf. destruct addr as [bytes|].
  - destruct (getHost_wf ipToHost now resolver bytes Hwf) as [Hne Hwf'].
    split; [split; [intros H; contradiction|discriminate]|split; [discriminate|exact Hwf']].
  - cbn. split; [tauto|split; [reflexivity|exact Hwf]].
Qed.

Lemma getHost_empty_iff_absent_witness :
  cache_wf ∅ /\
  ((getHost ∅ 0 no_resolver (Some [Byte.x0a; Byte.x00; Byte.x00; Byte.x01])).1 = "" <->
   Some [Byte.x0a; Byte.x00; Byte.x00; Byte.x01] = None) /\
  (Some [Byte.x0a; Byte.x00; Byte.x00; Byte.x01] = None ->
   (getHost ∅ 0 no_resolver (Some [Byte.x0a; Byte.x00; Byte.x00; Byte.x01])).2 = ∅) /\
  cache_wf (getHost ∅ 0 no_resolver (Some [Byte.x0a; Byte.x00; Byte.x00; Byte.x01])).2.
Proof.
  assert (H : cache_wf ∅) by (intros ip h; by rewrite lookup_empty).
  split; [exact H|].
  apply (getHost_empty_iff_absent ∅ 0 no_resolver (Some [Byte.x0a; Byte.x00; Byte.x00; Byte.x01]) H).
Defined.

(** C7: when the lookup is attempted (no entry, or an entry older than
    an hour) and fails (an error, no names, or an empty first name): with
    no prior entry the IP string itself is cached (with the current time)
    and returned; with a prior entry that entry is returned and stays in
    the cache unchanged. *)
Theorem getHost_failure_keeps_prior (ipToHost : gmap string hostItem) (now : Z)
    (resolver : Resolver) (bytes : list Byte.byte) :
  let ip := IP_String bytes in
  match ipToHost !! ip with None => True | Some h => (timestamp h + Hour < now)%Z end ->
  lookup_ok (resolver ip) = None ->
  (ipToHost !! ip = None ->
   getHost ipToHost now resolver (Some bytes) =
   (ip, <[ip := {| host := ip; timestamp := now |}]> ipToHost)) /\
  (forall h, ipToHost !! ip = Some h ->
   getHost ipToHost now resolver (Some bytes) = (host h, ipToHost)).
Proof.
  intros ip Hstale Hfail. unfold getHost. fold ip. rewrite Hfail. split.
  - intros Hn. rewrite Hn. reflexivity.
  - intros h Hh. rewrite Hh in Hstale |- *.
    replace (Z.ltb (timestamp h + Hour) now) with true by (symmetry; apply Z.ltb_lt; exact Hstale).
    f_equal. by apply insert_id.
Qed.

Lemma getHost_failure_keeps_prior_witness :
  (timestamp {| host := "printer.lan."; timestamp := 0 |} + Hour < 2 * Hour)%Z /\
  getHost stale_cache (2 * Hour) no_resolver (Some [Byte.x0a; Byte.x00; Byte.x00; Byte.x01]) =
  ("printer.lan.", stale_cache).
Proof.
  split; [vm_compute; reflexivity|].
  destruct (getHost_failure_keeps_prior stale_cache (2 * Hour) no_resolver
              [Byte.x0a; Byte.x00; Byte.x00; Byte.x01]) as [_ H2];
    [vm_compute; reflexivity|reflexivity|].
  apply (H2 {| host := "printer.lan."; timestamp := 0 |}). reflexivity.
Defined.

(* ------------------------------------------------------------------ *)
(** ** Termination of the chain walk *)

Lemma walk_out_of_fuel_path fuel bs cn q :
  walk fuel bs cn q = OutOfFuel ->
  length (chain_path cn q fuel) = fuel /\ forall x, x ∈ chain_path cn q fuel -> x ∈ dom cn.
Proof.
  revert q. induction fuel as [|f IH]; intros q; cbn [walk chain_path].
  - intros _. split; [reflexivity|]. intros x Hx. inversion Hx.
  - unfold next_name. destruct (Nat.eqb_spec (String.length (map_get cn q)) 0) as [_|Hlen];
      [discriminate|].
    destruct (decide _); [discriminate|]. intros Hw.
    destruct (IH _ Hw) as [Hl Hin]. cbn. split; [by rewrite Hl|].
    intros x Hx. apply elem_of_cons in Hx as [->|Hx]; [|by apply Hin].
    apply elem_of_dom. unfold map_get in Hlen.
    destruct (cn !! q); [done|cbn in Hlen; lia].
Qed.

Lemma walk_terminates fuel bs cn q :
  acyclic_from cn q -> (size cn < fuel)%nat -> walk fuel bs cn q <> OutOfFuel.
Proof.
  intros Hac Hf Hw. destruct (walk_out_of_fuel_path _ _ _ _ Hw) as [Hl Hin].
  assert (Hsub : chain_path cn q fuel ⊆+ elements (dom cn)).
  { apply NoDup_submseteq; [apply Hac|]. intros x Hx. apply elem_of_elements, Hin, Hx. }
  apply submseteq_length in Hsub. rewrite Hl in Hsub.
  rewrite <- (size_dom (D := gset string) cn) in Hf. unfold size, set_size in Hf. cbn in Hf.
  lia.
Qed.

Lemma build_chain_not_out_of_fuel (answers : list RR) (cnames : option (gmap string string)) :
  build_chain answers cnames <> OutOfFuel.
Proof.
  revert cnames. induction answers as [|rr rest IH]; intros cnames; cbn; [discriminate|].
  destruct (N.eqb _ _); [destruct rr; [apply IH|discriminate]|apply IH].
Qed.

Lemma walk_cycle_diverges fuel :
  walk fuel ∅ (<["b." := "a."]> (<["a." := "b."]> ∅)) "a." = OutOfFuel /\
  walk fuel ∅ (<["b." := "a."]> (<["a." := "b."]> ∅)) "b." = OutOfFuel.
Proof.
  induction fuel as [|f [IHa IHb]]; [split; reflexivity|].
  split; cbn [walk]; [rewrite (decide_False (P := "b." ∈ (∅ : gset string))) by set_solver
                     |rewrite (decide_False (P := "a." ∈ (∅ : gset string))) by set_solver];
    assumption.
Qed.

(** C8: the walk terminates on every record whose local CNAME mapping has
    no cycle on the path from qname: with more rounds than the mapping has
    entries, [processDnstapMessage] never runs out of fuel. On the record
    a. -> b., b. -> a. with an empty BlockSet, it runs out of fuel for
    every bound: the loop never ends. *)
Theorem chain_walk_termination :
  (forall fuel proc message,
     (forall m q qs cn s, dnsMessage message = Some m -> Question_ m = q :: qs ->
        build_chain (Answer m) None = Done (Some cn) s ->
        acyclic_from cn (Name q) /\ (size cn < fuel)%nat) ->
     processDnstapMessage fuel proc message <> OutOfFuel) /\
  (exists proc message m q qs cn,
     dnsMessage message = Some m /\ Question_ m = q :: qs /\
     build_chain (Answer m) None = Done (Some cn) [] /\
     ~ acyclic_from cn (Name q) /\
     (forall x, x ∈ chain_path cn (Name q) 3 -> x ∉ blockedDomains proc) /\
     forall fuel, processDnstapMessage fuel proc message = OutOfFuel).
Proof.
  split.
  - intros fuel proc message Hac. unfold processDnstapMessage.
    destruct (dnsMessage message) as [m|] eqn:Hm; [|discriminate].
    destruct (Nat.ltb 0 _); [|discriminate].
    destruct (Question_ m) as [|q qs] eqn:Hq; [discriminate|].
    destruct (decide _); [discriminate|].
    destruct (build_chain (Answer m) None) as [[cn|] s| |] eqn:Hb; cbn; try discriminate;
      [|intros _; exact (build_chain_not_out_of_fuel _ _ Hb)].
    destruct (Hac m q qs cn s eq_refl Hq Hb) as [Ha Hf].
    pose proof (walk_terminates fuel (blockedDomains proc) cn (Name q) Ha Hf) as Hw.
    destruct (walk fuel _ cn _) as [[c|] s'| |]; cbn; congruence.
  - exists proc_empty, cycle_msg,
      {| Question_ := [{| Name := "a." |}]; Answer := [cname_rr "a." "b."; cname_rr "b." "a."] |},
      {| Name := "a." |}, [], (<["b." := "a."]> (<["a." := "b."]> ∅)).
    split; [reflexivity|]. split; [reflexivity|]. split; [reflexivity|].
    split; [|split].
    + intros Hac. specialize (Hac 3%nat). vm_compute in Hac.
      inversion Hac as [|? ? Hn _]. apply Hn. right. left.
    + intros x _. cbn. set_solver.
    + intros fuel. unfold processDnstapMessage. cbn -[walk].
      rewrite (decide_False (P := "a." ∈ (∅ : gset string))) by set_solver. cbn -[walk].
      destruct (walk_cycle_diverges fuel) as [Ha _]. rewrite Ha. reflexivity.
Qed.

(* ------------------------------------------------------------------ *)
(** ** List-file lines *)

Lemma append_cons c x y : String.append (String c x) y = String c (String.append x y).
Proof. reflexivity. Qed.

Lemma append_empty y : String.append EmptyString y = y.
Proof. reflexivity. Qed.

Lemma span_app p s a b : span p s = (a, b) -> s = String.append a b.
Proof.
  revert a b. induction s as [|c s IH]; intros a b; cbn.
  - intros [= <- <-]. reflexivity.
  - destruct (p c).
    + destruct (span p s) as [a' b'] eqn:Hs. intros [= <- <-]. rewrite (IH a' b' eq_refl). reflexivity.
    + intros [= <- <-]. reflexivity.
Qed.

Lemma append_assoc_str (x y z : string) :
  String.append x (String.append y z) = String.append (String.append x y) z.
Proof.
  induction x as [|c x IH]; [reflexivity|]. rewrite !append_cons. by rewrite IH.
Qed.

Lemma label_app s l r : label s = Some (l, r) -> s = String.append l r.
Proof.
  destruct s as [|c s]; cbn; [discriminate|].
  destruct (is_L c); [|discriminate].
  destruct (span is_H s) as [h r'] eqn:Hs.
  destruct r' as [|d r'']; [discriminate|]. destruct (is_dot d); [|discriminate].
  intros [= <- <-]. rewrite (span_app _ _ _ _ Hs).
  rewrite append_cons, <- append_assoc_str, append_cons, append_empty. reflexivity.
Qed.

Lemma labels_from_app fuel s p r : (p, r) ∈ labels_from fuel s -> s = String.append p r.
Proof.
  revert s p r. induction fuel as [|f IH]; intros s p r; cbn; [intros H; inversion H|].
  destruct (label s) as [[l r0]|] eqn:Hl; [|intros H; inversion H].
  rewrite (label_app _ _ _ Hl). intros [[= -> ->]|Hin]%elem_of_cons; [reflexivity|].
  apply list_elem_of_fmap in Hin as [[p' r'] [Heq Hin]]. injection Heq as -> ->.
  rewrite (IH _ _ _ Hin). by rewrite append_assoc_str.
Qed.

Lemma tld_app r t : tld r = Some t -> exists r', r = String.append t r'.
Proof.
  unfold tld. destruct (span is_lower r) as [a r'] eqn:Hs.
  destruct (Nat.leb 2 _); [|discriminate]. intros [= <-].
  rewrite (span_app _ _ _ _ Hs).
  destruct r' as [|d r''].
  - exists EmptyString. by rewrite <- append_assoc_str.
  - destruct (is_dot d).
    + exists r''. by rewrite <- append_assoc_str.
    + exists (String d r''). by rewrite <- append_assoc_str.
Qed.

Lemma first_some_elem {A B} (f : A -> option B) l y :
  first_some f l = Some y -> exists x, x ∈ l /\ f x = Some y.
Proof.
  induction l as [|x l IH]; cbn; [discriminate|].
  destruct (f x) eqn:Hf.
  - intros [= <-]. exists x. split; [left|exact Hf].
  - intros H. destruct (IH H) as (x' & Hx' & Hf'). exists x'. split; [right; exact Hx'|exact Hf'].
Qed.

Lemma domain_match_prefix s d : domain_match s = Some d -> exists rest, s = String.append d rest.
Proof.
  unfold domain_match. intros H. apply first_some_elem in H as ([p r] & Hin & Hf).
  rewrite list_elem_of_In, <- in_rev, <- list_elem_of_In in Hin. apply labels_from_app in Hin as ->.
  destruct (tld r) as [t|] eqn:Ht; [|discriminate]. cbn in Hf. injection Hf as <-.
  destruct (tld_app _ _ Ht) as [r' ->]. exists r'. by rewrite append_assoc_str.
Qed.

Lemma strip_prefix_app p s r : strip_prefix p s = Some r -> s = String.append p r.
Proof.
  revert s. induction p as [|c p IH]; intros s; cbn; [intros [= ->]; reflexivity|].
  destruct s as [|d s]; [discriminate|].
  destruct (Ascii.eqb_spec c d) as [->|]; [|discriminate]. intros H.
  rewrite append_cons. f_equal. by apply IH.
Qed.

Lemma span_all p s a b : span p s = (a, b) -> forallb p (list_ascii_of_string a) = true.
Proof.
  revert a b. induction s as [|c s IH]; intros a b; cbn; [intros [= <- _]; reflexivity|].
  destruct (p c) eqn:Hc.
  - destruct (span p s) as [a' b'] eqn:Hs. intros [= <- _]. cbn. rewrite Hc. by apply (IH _ b').
  - intros [= <- _]. reflexivity.
Qed.

Lemma zone_prefix_app s r :
  zone_prefix s = Some r ->
  exists sp, forallb is_space (list_ascii_of_string sp) = true /\
             s = String.append "local-zone:" (String.append sp (String.append quote_str r)).
Proof.
  unfold zone_prefix. destruct (strip_prefix _ s) as [rest|] eqn:Hp; [|discriminate].
  destruct (span is_space rest) as [sp r0] eqn:Hs.
  destruct r0 as [|q r']; [discriminate|].
  destruct (Ascii.eqb_spec q quote_char) as [->|]; [|discriminate]. intros [= <-].
  exists sp. split; [exact (span_all _ _ _ _ Hs)|].
  rewrite (strip_prefix_app _ _ _ Hp), (span_app _ _ _ _ Hs). reflexivity.
Qed.

Lemma list_ascii_of_string_append (x y : string) :
  list_ascii_of_string (String.append x y) = list_ascii_of_string x ++ list_ascii_of_string y.
Proof.
  induction x as [|c x IH]; [reflexivity|]. rewrite append_cons. cbn. by rewrite IH.
Qed.

Lemma dot_terminate_suffix d : HasSuffixDot (dot_terminate d) = true.
Proof.
  unfold dot_terminate. destruct (HasSuffixDot d) eqn:H; [exact H|].
  unfold HasSuffixDot. rewrite list_ascii_of_string_append. cbn.
  rewrite last_snoc. reflexivity.
Qed.

Lemma fold_rpz_line_elem lines S0 d :
  d ∈ fold_left rpz_line lines S0 <->
  d ∈ S0 \/ exists line m, line ∈ lines /\ rpz_match line = Some m /\ d = dot_terminate m.
Proof.
  revert S0. induction lines as [|line lines IH]; intros S0; cbn.
  - split; [by left|]. intros [H|(? & ? & H & _)]; [exact H|inversion H].
  - rewrite IH. unfold rpz_line. destruct (rpz_match line) as [m|] eqn:Hm.
    + rewrite elem_of_union, elem_of_singleton. split.
      * intros [[H | ->]|(l & m' & Hl & Hm' & ->)]; [by left|right|right].
        -- exists line, m. split; [left|split; [exact Hm|reflexivity]].
        -- exists l, m'. split; [right; exact Hl|split; [exact Hm'|reflexivity]].
      * intros [H|(l & m' & Hl & Hm' & ->)]; [left; left; exact H|].
        apply elem_of_cons in Hl as [-> | Hl].
        -- left; right. congruence.
        -- right. exists l, m'. auto.
    + split.
      * intros [H|(l & m' & Hl & Hm' & ->)]; [by left|right].
        exists l, m'. split; [right; exact Hl|auto].
      * intros [H|(l & m' & Hl & Hm' & ->)]; [by left|].
        apply elem_of_cons in Hl as [-> | Hl]; [congruence|].
        right. exists l, m'. auto.
Qed.

Lemma rpz_match_anchored line m :
  rpz_match line = Some m ->
  (exists rest, line = String.append m rest) \/
  (exists sp rest, forallb is_space (list_ascii_of_string sp) = true /\
     line = String.append "local-zone:" (String.append sp (String.append quote_str (String.append m rest)))).
Proof.
  unfold rpz_match. destruct (zone_prefix line) as [r|] eqn:Hz.
  - destruct (domain_match r) as [d|] eqn:Hd.
    + intros [= <-]. right. destruct (zone_prefix_app _ _ Hz) as (sp & Hsp & ->).
      destruct (domain_match_prefix _ _ Hd) as [rest ->]. exists sp, rest. auto.
    + intros H. left. exact (domain_match_prefix _ _ H).
  - intros H. left. exact (domain_match_prefix _ _ H).
Qed.

(** C9 (as stated, refuted): the line regexp is anchored with [^], so a
    line holding a domain name after other text contributes nothing, even
    though the domain-name part of the pattern matches that name. *)
Lemma rpz_domain_after_text_ignored :
  domain_match "ads.example.com" = Some "ads.example.com" /\
  loadRpzFile (Some ["0.0.0.0 ads.example.com"]) = Some ∅.
Proof. split; reflexivity. Qed.

(** C9 (amended): a line contributes an entry exactly when the pattern
    matches at the start of the line, directly or after [local-zone:],
    optional whitespace and a double quote; the entry is the matched
    domain with a dot appended when it lacks one, so every entry ends with
    a dot; a line without such a match contributes nothing. *)
Theorem rpz_entries_anchored_dotted (lines : list string) :
  exists S, loadRpzFile (Some lines) = Some S /\
  (forall d, d ∈ S <-> exists line m, line ∈ lines /\ rpz_match line = Some m /\ d = dot_terminate m) /\
  (forall d, d ∈ S -> HasSuffixDot d = true) /\
  (forall line m, rpz_match line = Some m ->
     (exists rest, line = String.append m rest) \/
     (exists sp rest, forallb is_space (list_ascii_of_string sp) = true /\
        line = String.append "local-zone:" (String.append sp (String.append quote_str (String.append m rest))))).
Proof.
  exists (fold_left rpz_line lines ∅). split; [reflexivity|].
  assert (Hel : forall d, d ∈ fold_left rpz_line lines ∅ <->
                exists line m, line ∈ lines /\ rpz_match line = Some m /\ d = dot_terminate m).
  { intros d. rewrite fold_rpz_line_elem. split; [|by right].
    intros [H|H]; [set_solver|exact H]. }
  split; [exact Hel|split].
  - intros d Hd. apply Hel in Hd as (line & m & _ & _ & ->). apply dot_terminate_suffix.
  - apply rpz_match_anchored.
Qed.

(* ================================================================== *)
(** * Further properties of the engine, the update handler and the decoder *)

(* ------------------------------------------------------------------ *)
(** ** Effects of one traffic record *)

Lemma bind_Done_inv {A B} (m : Res A) (f : A -> Res B) b s :
  (m ≫= f) = Done b s ->
  exists a s1 s2, m = Done a s1 /\ f a = Done b s2 /\ s = s1 ++ s2.
Proof.
  destruct m as [a s1| |]; cbn; try discriminate.
  destruct (f a) as [b' s2| |] eqn:Hf; try discriminate.
  intros [= <- <-]. by exists a, s1, s2.
Qed.

Lemma build_chain_sent answers cnames r s :
  build_chain answers cnames = Done r s -> s = [].
Proof.
  revert cnames. induction answers as [|rr rest IH]; intros cnames; cbn.
  - by intros [= _ <-].
  - destruct (N.eqb _ _); [destruct rr; [apply IH|discriminate]|apply IH].
Qed.

Lemma walk_sent fuel bs cn check r s : walk fuel bs cn check = Done r s -> s = [].
Proof.
  revert check. induction fuel as [|f IH]; intros check; cbn; [discriminate|].
  destruct (Nat.eqb _ 0); [by intros [= _ <-]|].
  destruct (decide _); [by intros [= _ <-]|apply IH].
Qed.

Lemma dnstap_step_cases fuel p message p' s :
  processDnstapMessage fuel p message = Done p' s ->
  (p' = p /\ s = []) \/
  (exists m q qs c, dnsMessage message = Some m /\ Question_ m = q :: qs /\
     (Name q ∉ blockedDomains p) /\ c ∈ blockedDomains p /\
     s = [{| cmd := ZoneAdd; domain := Name q |}] /\
     p' = {| blockedCnames := <[Name q := c]> (blockedCnames p);
             blockedDomains := {[Name q]} ∪ blockedDomains p |}).
Proof.
  unfold processDnstapMessage.
  destruct (dnsMessage message) as [m|] eqn:Hm; [|intros [= <- <-]; by left].
  destruct (Nat.ltb 0 _); [|intros [= <- <-]; by left].
  destruct (Question_ m) as [|q qs] eqn:Hq; [discriminate|].
  destruct (decide _) as [_|Hnq]; [intros [= <- <-]; by left|].
  intros H. apply bind_Done_inv in H as (r & s1 & s2 & Hb & H & ->).
  rewrite (build_chain_sent _ _ _ _ Hb). cbn [app].
  destruct r as [cn|]; [|injection H as <- <-; by left].
  apply bind_Done_inv in H as (r & s3 & s4 & Hw & H & ->).
  rewrite (walk_sent _ _ _ _ _ _ Hw). cbn [app].
  destruct r as [c|]; [|injection H as <- <-; by left].
  cbn in H. injection H as <- <-. right.
  exists m, q, qs, c. repeat split; try assumption.
  eapply walk_hit_blocked; exact Hw.
Qed.

(** A traffic record never removes anything from the engine state. It
    either changes nothing and sends nothing, or it sends exactly one
    [ZoneAdd] for its (unblocked) first question name, records that name
    in the CloakMap with a blocked target and adds it to the BlockSet. *)
Theorem traffic_step_effect (fuel : nat) (p : CnameProcessor) (message : Message)
    (p' : CnameProcessor) (s : list UnboundCommandMessage) :
  processDnstapMessage fuel p message = Done p' s ->
  (p' = p /\ s = []) \/
  (exists m q qs c, dnsMessage message = Some m /\ Question_ m = q :: qs /\
     (Name q ∉ blockedDomains p) /\ c ∈ blockedDomains p /\
     s = [{| cmd := ZoneAdd; domain := Name q |}] /\
     p' = {| blockedCnames := <[Name q := c]> (blockedCnames p);
             blockedDomains := {[Name q]} ∪ blockedDomains p |}).
Proof. apply dnstap_step_cases. Qed.

Lemma traffic_step_effect_witness :
  processDnstapMessage 2 proc_c chain_msg =
    Done {| blockedCnames := <["a." := "c."]> ∅; blockedDomains := {["a."]} ∪ {["c."]} |}
         [{| cmd := ZoneAdd; domain := "a." |}] /\
  ((({| blockedCnames := <["a." := "c."]> ∅; blockedDomains := {["a."]} ∪ {["c."]} |} : CnameProcessor)
      = proc_c /\ [{| cmd := ZoneAdd; domain := "a." |}] = []) \/
   (exists m q qs c, dnsMessage chain_msg = Some m /\ Question_ m = q :: qs /\
     (Name q ∉ blockedDomains proc_c) /\ c ∈ blockedDomains proc_c /\
     [{| cmd := ZoneAdd; domain := "a." |}] = [{| cmd := ZoneAdd; domain := Name q |}] /\
     ({| blockedCnames := <["a." := "c."]> ∅; blockedDomains := {["a."]} ∪ {["c."]} |} : CnameProcessor) =
       {| blockedCnames := <[Name q := c]> (blockedCnames proc_c);
          blockedDomains := {[Name q]} ∪ blockedDomains proc_c |})).
Proof.
  assert (H : processDnstapMessage 2 proc_c chain_msg =
    Done {| blockedCnames := <["a." := "c."]> ∅; blockedDomains := {["a."]} ∪ {["c."]} |}
         [{| cmd := ZoneAdd; domain := "a." |}]) by reflexivity.
  split; [exact H|]. exact (traffic_step_effect 2 proc_c chain_msg _ _ H).
Defined.

(* ------------------------------------------------------------------ *)
(** ** The chain walk finds the first blocked name *)

Lemma next_name_Some cn check y :
  next_name cn check = Some y <-> map_get cn check = y /\ String.length y <> 0%nat.
Proof.
  unfold next_name. destruct (Nat.eqb_spec (String.length (map_get cn check)) 0) as [H|H].
  - split; [discriminate|]. intros [<- Hy]. contradiction.
  - split; [intros [= <-]; tauto|]. intros [<- _]. reflexivity.
Qed.

Lemma next_name_None cn check :
  next_name cn check = None <-> String.length (map_get cn check) = 0%nat.
Proof.
  unfold next_name. destruct (Nat.eqb_spec (String.length (map_get cn check)) 0) as [H|H];
    split; congruence.
Qed.

Lemma chain_path_S cn q n :
  chain_path cn q (S n) =
  q :: match next_name cn q with Some y => chain_path cn y n | None => [] end.
Proof. reflexivity. Qed.

Lemma walk_first_blocked_spec fuel bs cn q c s :
  walk fuel bs cn q = Done (Some c) s <->
  s = [] /\ exists pre, (length pre < fuel)%nat /\
    chain_path cn q (length pre + 2) = q :: pre ++ [c] /\
    Forall (fun x => x ∉ bs) pre /\ c ∈ bs.
Proof.
  revert q. induction fuel as [|f IH]; intros q.
  - cbn. split; [discriminate|]. intros [_ [pre [Hl _]]]. lia.
  - cbn [walk]. split.
    + destruct (Nat.eqb_spec (String.length (map_get cn q)) 0) as [H0|H0]; [discriminate|].
      destruct (decide (map_get cn q ∈ bs)) as [Hin|Hnin].
      * intros [= <- <-]. split; [reflexivity|]. exists []. cbn [length app Nat.add].
        split; [lia|]. split; [|split; [constructor|exact Hin]].
        rewrite chain_path_S.
        replace (next_name cn q) with (Some (map_get cn q)) by (symmetry; by apply next_name_Some).
        cbn [app]. rewrite chain_path_S. by destruct (next_name cn (map_get cn q)).
      * intros Hw. apply IH in Hw as [-> [pre (Hl & Hp & Hf & Hc)]].
        split; [reflexivity|]. exists (map_get cn q :: pre). cbn [length app].
        split; [lia|]. split; [|split; [constructor; assumption|exact Hc]].
        replace (S (length pre) + 2)%nat with (S (length pre + 2)) by lia.
        rewrite chain_path_S.
        replace (next_name cn q) with (Some (map_get cn q)) by (symmetry; by apply next_name_Some).
        rewrite Hp. reflexivity.
    + intros [-> [pre (Hl & Hp & Hf & Hc)]].
      replace (length pre + 2)%nat with (S (length pre + 1)) in Hp by lia.
      rewrite chain_path_S in Hp. injection Hp as Hp.
      destruct (next_name cn q) as [y|] eqn:Hn; [|destruct pre; discriminate].
      apply next_name_Some in Hn as [Hy Hy0]. rewrite Hy.
      destruct (Nat.eqb_spec (String.length y) 0) as [?|_]; [contradiction|].
      destruct pre as [|x pre].
      * cbn in Hp. injection Hp as ->. rewrite decide_True by exact Hc. reflexivity.
      * cbn [app] in Hp. replace (length (x :: pre) + 1)%nat with (S (length pre + 1)) in Hp
          by (cbn; lia).
        rewrite chain_path_S in Hp. injection Hp as <- Hp.
        inversion Hf as [|? ? Hx Hf']; subst.
        rewrite decide_False by exact Hx.
        apply IH. split; [reflexivity|]. exists pre. cbn [length] in Hl.
        split; [lia|]. split; [|split; assumption].
        replace (length pre + 2)%nat with (S (length pre + 1)) by lia.
        rewrite chain_path_S, Hp. reflexivity.
Qed.

Lemma walk_stops_spec fuel bs cn q s :
  walk fuel bs cn q = Done None s <->
  s = [] /\ exists pre, (length pre < fuel)%nat /\
    chain_path cn q (length pre + 2) = q :: pre /\
    Forall (fun x => x ∉ bs) pre.
Proof.
  revert q. induction fuel as [|f IH]; intros q.
  - cbn. split; [discriminate|]. intros [_ [pre [Hl _]]]. lia.
  - cbn [walk]. split.
    + destruct (Nat.eqb_spec (String.length (map_get cn q)) 0) as [H0|H0].
      * intros [= <-]. split; [reflexivity|]. exists []. cbn [length Nat.add].
        split; [lia|]. split; [|constructor].
        rewrite chain_path_S.
        replace (next_name cn q) with (@None string) by (symmetry; by apply next_name_None).
        reflexivity.
      * destruct (decide (map_get cn q ∈ bs)) as [Hin|Hnin]; [discriminate|].
        intros Hw. apply IH in Hw as [-> [pre (Hl & Hp & Hf)]].
        split; [reflexivity|]. exists (map_get cn q :: pre). cbn [length].
        split; [lia|]. split; [|constructor; assumption].
        replace (S (length pre) + 2)%nat with (S (length pre + 2)) by lia.
        rewrite chain_path_S.
        replace (next_name cn q) with (Some (map_get cn q)) by (symmetry; by apply next_name_Some).
        rewrite Hp. reflexivity.
    + intros [-> [pre (Hl & Hp & Hf)]].
      replace (length pre + 2)%nat with (S (length pre + 1)) in Hp by lia.
      rewrite chain_path_S in Hp. injection Hp as Hp.
      destruct (next_name cn q) as [y|] eqn:Hn.
      * apply next_name_Some in Hn as [Hy Hy0]. rewrite Hy.
        destruct (Nat.eqb_spec (String.length y) 0) as [?|_]; [contradiction|].
        destruct pre as [|x pre].
        -- replace (length [] + 1)%nat with 1%nat in Hp by reflexivity.
           rewrite chain_path_S in Hp. discriminate.
        -- replace (length (x :: pre) + 1)%nat with (S (length pre + 1)) in Hp by (cbn; lia).
           rewrite chain_path_S in Hp. injection Hp as <- Hp.
           inversion Hf as [|? ? Hx Hf']; subst.
           rewrite decide_False by exact Hx.
           apply IH. split; [reflexivity|]. exists pre. cbn [length] in Hl.
           split; [lia|]. split; [|assumption].
           replace (length pre + 2)%nat with (S (length pre + 1)) by lia.
           rewrite chain_path_S, Hp. reflexivity.
      * apply next_name_None in Hn. rewrite Hn. reflexivity.
Qed.

(** The chain walk follows the local CNAME mapping from the query name
    and stops at the first name along the path that is in the BlockSet
    (every name before it is not blocked); it stops without a hit exactly
    when the path ends, within the rounds given, before reaching a blocked
    name. *)
Theorem walk_first_blocked (fuel : nat) (bs : gset string) (cn : gmap string string)
    (q : string) (s : list UnboundCommandMessage) :
  (forall c, walk fuel bs cn q = Done (Some c) s <->
     s = [] /\ exists pre, (length pre < fuel)%nat /\
       chain_path cn q (length pre + 2) = q :: pre ++ [c] /\
       Forall (fun x => x ∉ bs) pre /\ c ∈ bs) /\
  (walk fuel bs cn q = Done None s <->
     s = [] /\ exists pre, (length pre < fuel)%nat /\
       chain_path cn q (length pre + 2) = q :: pre /\
       Forall (fun x => x ∉ bs) pre).
Proof.
  split; [intros c; apply walk_first_blocked_spec|apply walk_stops_spec].
Qed.

(* ------------------------------------------------------------------ *)
(** ** The local CNAME map: the last record of an owner wins *)


Lemma cname_pairs_cons rr rest :
  cname_pairs (rr :: rest) =
  match rr with
  | CNAME h t => if N.eqb (Rrtype h) TypeCNAME then (Hdr_Name h, t) :: cname_pairs rest
                 else cname_pairs rest
  | OtherRR _ => cname_pairs rest
  end.
Proof. unfold cname_pairs. cbn. destruct rr as [h t|h]; [|reflexivity]. by destruct (N.eqb _ _). Qed.

Lemma build_chain_fold answers acc :
  Forall rr_wf answers ->
  build_chain answers acc =
  Done (match cname_pairs answers with
        | [] => acc
        | _ => Some (fold_left insert_pair (cname_pairs answers) (default ∅ acc))
        end) [].
Proof.
  revert acc. induction answers as [|rr rest IH]; intros acc Hwf; [reflexivity|].
  inversion Hwf as [|? ? Hrr Hrest]; subst. cbn [build_chain]. rewrite cname_pairs_cons.
  destruct (N.eqb_spec (Rrtype (Header rr)) TypeCNAME) as [Ht|Ht].
  - destruct (Hrr Ht) as (h & t & ->). cbn in Ht.
    rewrite IH by exact Hrest. rewrite Ht, N.eqb_refl. cbn [default].
    destruct (cname_pairs rest); reflexivity.
  - rewrite IH by exact Hrest.
    destruct rr as [h t|h]; cbn in Ht |- *; [|reflexivity].
    rewrite (proj2 (N.eqb_neq _ _) Ht). reflexivity.
Qed.

Lemma fold_insert_pair_lookup l m n :
  fold_left insert_pair l m !! n =
  match last ((filter (fun e : string * string => e.1 = n) l).*2) with
  | Some t => Some t
  | None => m !! n
  end.
Proof.
  revert m. induction l as [|[k v] l IH]; intros m; [reflexivity|].
  cbn [fold_left]. rewrite IH. rewrite filter_cons. cbn [fst snd].
  destruct (decide (k = n)) as [->|Hne].
  - cbn [fmap list_fmap]. rewrite last_cons.
    destruct (last _); [reflexivity|]. unfold insert_pair. cbn. by rewrite lookup_insert_eq.
  - destruct (last _); [reflexivity|]. unfold insert_pair. cbn.
    by rewrite lookup_insert_ne.
Qed.

(** Building the local CNAME map from well-formed answer records: no map
    is built when no record has the CNAME type; otherwise the target of an
    owner name is the one of its last CNAME record (a later record
    overwrites an earlier one), and names without a CNAME record are
    absent. *)
Theorem build_chain_last_wins (answers : list RR) :
  Forall rr_wf answers ->
  (cname_pairs answers = [] -> build_chain answers None = Done None []) /\
  (cname_pairs answers <> [] ->
   exists cn, build_chain answers None = Done (Some cn) [] /\
     forall n, cn !! n = last ((filter (fun e : string * string => e.1 = n)
                                        (cname_pairs answers)).*2)).
Proof.
  intros Hwf. rewrite build_chain_fold by exact Hwf. split.
  - intros ->. reflexivity.
  - intros Hne. destruct (cname_pairs answers) as [|e l] eqn:Hp; [contradiction|].
    eexists. split; [reflexivity|]. intros n. cbn [default].
    rewrite fold_insert_pair_lookup, lookup_empty. by destruct (last _).
Qed.

Lemma build_chain_last_wins_witness :
  Forall rr_wf [cname_rr "a." "b."; a_rr "b."; cname_rr "a." "c."] /\
  (cname_pairs [cname_rr "a." "b."; a_rr "b."; cname_rr "a." "c."] <> [] ->
   exists cn, build_chain [cname_rr "a." "b."; a_rr "b."; cname_rr "a." "c."] None =
                Done (Some cn) [] /\
     forall n, cn !! n = last ((filter (fun e : string * string => e.1 = n)
                   (cname_pairs [cname_rr "a." "b."; a_rr "b."; cname_rr "a." "c."])).*2)).
Proof.
  assert (H : Forall rr_wf [cname_rr "a." "b."; a_rr "b."; cname_rr "a." "c."]).
  { repeat constructor; unfold rr_wf; cbn; eauto; discriminate. }
  split; [exact H|]. exact (proj2 (build_chain_last_wins _ H)).
Defined.

(* ------------------------------------------------------------------ *)
(** ** The reload does not depend on the map iteration order *)

Lemma fold_del_perm nb (l1 l2 : list (string * string)) cm :
  l1 ≡ₚ l2 -> fold_left (del_step nb) l1 cm = fold_left (del_step nb) l2 cm.
Proof.
  intros Hp. apply map_eq. intros k. rewrite !fold_del_lookup.
  assert (Hq : (filter (fun e : string * string => e.2 ∉ nb) l1).*1 ≡ₚ
               (filter (fun e : string * string => e.2 ∉ nb) l2).*1) by (by rewrite Hp).
  destruct (decide (k ∈ _)) as [H1|H1]; destruct (decide (k ∈ _)) as [H2|H2]; try reflexivity.
  - exfalso. apply H2. apply list_elem_of_In. apply list_elem_of_In in H1.
    exact (Permutation_in _ Hq H1).
  - exfalso. apply H1. apply list_elem_of_In. apply list_elem_of_In in H2.
    exact (Permutation_in _ (Permutation_sym Hq) H2).
Qed.

(** Go ranges over a map in an unspecified order. Whatever order the
    reload visits the CloakMap entries in, it reaches the same engine state,
    and it sends the same Unblock commands up to their order. *)
Theorem reload_order_independent (proc : CnameProcessor) (nb : gset string)
    (order : list (string * string)) :
  order ≡ₚ map_to_list (blockedCnames proc) ->
  exists p' s s', processUpdateLists proc nb = Done p' s /\
                  processUpdateLists_in order proc nb = Done p' s' /\ s' ≡ₚ s.
Proof.
  intros Hp. unfold processUpdateLists, processUpdateLists_in.
  rewrite !fold_update_entry. cbn [app].
  eexists _, _, _. split; [reflexivity|]. split.
  - rewrite (fold_del_perm nb _ _ _ Hp). reflexivity.
  - by rewrite Hp.
Qed.

Lemma reload_order_independent_witness :
  [("b.", "d."); ("a.", "c.")] ≡ₚ map_to_list (blockedCnames
     {| blockedCnames := <["a." := "c."]> (<["b." := "d."]> ∅); blockedDomains := ∅ |}) /\
  exists p' s s',
    processUpdateLists {| blockedCnames := <["a." := "c."]> (<["b." := "d."]> ∅);
                          blockedDomains := ∅ |} {["c."]} = Done p' s /\
    processUpdateLists_in [("b.", "d."); ("a.", "c.")]
      {| blockedCnames := <["a." := "c."]> (<["b." := "d."]> ∅); blockedDomains := ∅ |}
      {["c."]} = Done p' s' /\ s' ≡ₚ s.
Proof.
  assert (H : [("b.", "d."); ("a.", "c.")] ≡ₚ map_to_list (blockedCnames
     {| blockedCnames := <["a." := "c."]> (<["b." := "d."]> ∅); blockedDomains := ∅ |}))
    by (apply (bool_decide_eq_true_1 _); vm_compute; reflexivity).
  split; [exact H|]. exact (reload_order_independent _ {["c."]} _ H).
Defined.

(* ------------------------------------------------------------------ *)
(** ** The reload is idempotent *)

Lemma filter_none {A} (P : A -> Prop) `{forall x, Decision (P x)} (l : list A) :
  (forall x, x ∈ l -> ~ P x) -> filter P l = [].
Proof.
  induction l as [|x l IH]; intros Hl; [reflexivity|].
  rewrite filter_cons. rewrite decide_False by (apply Hl; left).
  apply IH. intros y Hy. apply Hl. by right.
Qed.

(** Processing the same reload a second time sends nothing and changes
    nothing: after the first one every CloakMap target is in the new set. *)
Theorem reload_idempotent (proc p1 : CnameProcessor) (nb : gset string)
    (s : list UnboundCommandMessage) :
  processUpdateLists proc nb = Done p1 s -> processUpdateLists p1 nb = Done p1 [].
Proof.
  intros H1.
  assert (Hall : forall e, e ∈ map_to_list (blockedCnames p1) -> ~ (e.2 ∉ nb)).
  { intros [q t] He. apply elem_of_map_to_list in He. cbn.
    pose proof (processUpdateLists_lookup _ _ _ _ _ _ H1 He) as [_ Ht]. tauto. }
  pose proof (processUpdateLists_blocked _ _ _ _ H1) as Hb.
  unfold processUpdateLists at 1. rewrite fold_update_entry.
  rewrite (filter_none _ _ Hall). cbn.
  destruct p1 as [cm1 bs1]. cbn in Hb |- *. subst bs1. f_equal. f_equal.
  apply map_eq. intros k. rewrite fold_del_lookup.
  rewrite (filter_none _ _ Hall). cbn. rewrite decide_False; [reflexivity|].
  intros Hk. inversion Hk.
Qed.

Lemma reload_idempotent_witness :
  processUpdateLists {| blockedCnames := <["a." := "c."]> (<["b." := "d."]> ∅);
                        blockedDomains := ∅ |} {["c."]} =
    Done {| blockedCnames := <["a." := "c."]> ∅; blockedDomains := {["c."]} |}
         [{| cmd := ZoneRemove; domain := "b." |}] /\
  processUpdateLists {| blockedCnames := <["a." := "c."]> ∅; blockedDomains := {["c."]} |} {["c."]} =
    Done {| blockedCnames := <["a." := "c."]> ∅; blockedDomains := {["c."]} |} [].
Proof.
  assert (H : processUpdateLists {| blockedCnames := <["a." := "c."]> (<["b." := "d."]> ∅);
                        blockedDomains := ∅ |} {["c."]} =
    Done {| blockedCnames := <["a." := "c."]> ∅; blockedDomains := {["c."]} |}
         [{| cmd := ZoneRemove; domain := "b." |}]).
  { vm_compute. reflexivity. }
  split; [exact H|]. exact (reload_idempotent _ _ _ _ H).
Defined.

(* ------------------------------------------------------------------ *)
(** ** The zones sent to Unbound mirror the CloakMap *)

Lemma apply_zones_app z s1 s2 : apply_zones z (s1 ++ s2) = apply_zones (apply_zones z s1) s2.
Proof. unfold apply_zones. apply fold_left_app. Qed.

Lemma apply_zones_unblock z (l : list (string * string)) :
  apply_zones z (unblock_msg <$> l) = z ∖ list_to_set l.*1.
Proof.
  revert z. induction l as [|[q t] l IH]; intros z; cbn.
  - set_solver.
  - unfold apply_zones in IH |- *. cbn. rewrite IH. set_solver.
Qed.

Lemma dom_fold_del nb (l : list (string * string)) (cm : gmap string string) :
  dom (fold_left (del_step nb) l cm) =
  dom cm ∖ list_to_set (filter (fun e : string * string => e.2 ∉ nb) l).*1.
Proof.
  apply set_eq. intros k. rewrite elem_of_difference, !elem_of_dom, elem_of_list_to_set.
  rewrite fold_del_lookup. destruct (decide _) as [Hk|Hk].
  - split; [intros [? [=]]|tauto].
  - tauto.
Qed.

Lemma zones_step fuel p c p' s :
  processCommand fuel p c = Done p' s ->
  apply_zones (dom (blockedCnames p)) s = dom (blockedCnames p').
Proof.
  destruct c as [message|nb]; cbn [processCommand].
  - intros H. destruct (dnstap_step_cases _ _ _ _ _ H)
      as [[-> ->]|(m & q & qs & c & _ & _ & _ & _ & -> & ->)]; [reflexivity|].
    cbn. rewrite dom_insert_L. set_solver.
  - unfold processUpdateLists. rewrite fold_update_entry. cbn [app].
    intros [= <- <-]. cbn. rewrite apply_zones_unblock, dom_fold_del. reflexivity.
Qed.

(** The local Unbound is told to add a zone when a name enters the
    CloakMap and to remove it when the name leaves: for every run of the
    command loop, replaying the sent commands on the zones of the keys of
    the CloakMap before the run gives the keys of the CloakMap after it.
    From [NewCnameProcessor] (an empty CloakMap), the zones Unbound was
    told to keep are exactly the CloakMap keys. *)
Theorem unbound_zones_track_cloakmap (fuel : nat) (p p' : CnameProcessor)
    (cmds : list Command) (s : list UnboundCommandMessage) :
  processCommands fuel p cmds = Done p' s ->
  apply_zones (dom (blockedCnames p)) s = dom (blockedCnames p').
Proof.
  revert p s. induction cmds as [|c cmds IH]; intros p s.
  - cbn. intros [= <- <-]. reflexivity.
  - cbn [processCommands]. intros H.
    apply bind_Done_inv in H as (p1 & s1 & s2 & H1 & H2 & ->).
    rewrite apply_zones_app, (zones_step _ _ _ _ _ H1). exact (IH _ _ H2).
Qed.

Lemma unbound_zones_track_cloakmap_witness :
  processCommands 2 (init_proc {["c."]})
    [DnsTapCommand cloak_msg; UpdateListsCommand ∅] =
    Done {| blockedCnames := ∅; blockedDomains := ∅ |}
         [{| cmd := ZoneAdd; domain := "a." |}; {| cmd := ZoneRemove; domain := "a." |}] /\
  apply_zones (dom (blockedCnames (init_proc {["c."]})))
    [{| cmd := ZoneAdd; domain := "a." |}; {| cmd := ZoneRemove; domain := "a." |}] =
  dom (blockedCnames ({| blockedCnames := ∅; blockedDomains := ∅ |} : CnameProcessor)).
Proof.
  assert (H : processCommands 2 (init_proc {["c."]})
    [DnsTapCommand cloak_msg; UpdateListsCommand ∅] =
    Done {| blockedCnames := ∅; blockedDomains := ∅ |}
         [{| cmd := ZoneAdd; domain := "a." |}; {| cmd := ZoneRemove; domain := "a." |}])
    by (vm_compute; reflexivity).
  split; [exact H|]. exact (unbound_zones_track_cloakmap _ _ _ _ _ H).
Defined.

(* ------------------------------------------------------------------ *)
(** ** Start-up and the HTTP update handler *)

Lemma getBlockedDomains_some bf wf blf base supp allow :
  loadRpzFile bf = Some base -> loadRpzFile blf = Some supp -> loadRpzFile wf = Some allow ->
  getBlockedDomains bf wf blf = Some ((base ∪ supp) ∖ allow).
Proof.
  intros Hb Hs Ha. unfold getBlockedDomains. rewrite Ha, Hs, Hb. cbn. f_equal.
  unfold removeKeys, addKeys. rewrite removeKeys_in_difference, addKeys_in_union.
  rewrite !list_to_set_elements_L. reflexivity.
Qed.

Lemma getBlockedDomains_none bf wf blf :
  getBlockedDomains bf wf blf = None <-> bf = None \/ wf = None \/ blf = None.
Proof.
  unfold getBlockedDomains.
  destruct wf; destruct blf; destruct bf; cbn; split; intros H;
    try discriminate; try reflexivity; intuition congruence.
Qed.

Lemma processUpdateLists_lookup_iff p nb p' s q t :
  processUpdateLists p nb = Done p' s ->
  blockedCnames p' !! q = Some t <-> blockedCnames p !! q = Some t /\ t ∈ nb.
Proof.
  intros H. split; [by apply (processUpdateLists_lookup _ _ _ _ _ _ H)|].
  intros [Hq Ht]. revert H. unfold processUpdateLists. rewrite fold_update_entry.
  intros [= <- _]. cbn. rewrite fold_del_lookup, decide_False; [exact Hq|].
  rewrite removed_keys_spec. intros [t' [Hq' Ht']]. rewrite Hq in Hq'.
  injection Hq' as <-. contradiction.
Qed.

Lemma processUpdateLists_Done p nb : exists p' s, processUpdateLists p nb = Done p' s.
Proof. unfold processUpdateLists. destruct (fold_left _ _ _). eauto. Qed.

(** Start-up aborts ([log.Fatal]) as soon as one of the three list files
    is missing or unreadable; otherwise the engine starts with an empty
    CloakMap and the BlockSet (blocked ∪ blacklist) ∖ whitelist. *)
Theorem NewCnameProcessor_needs_all_lists (files : ListFiles) :
  (NewCnameProcessor files = None <->
     blockedFile files = None \/ whitelistFile files = None \/ blacklistFile files = None) /\
  (forall base supp allow,
     loadRpzFile (blockedFile files) = Some base ->
     loadRpzFile (blacklistFile files) = Some supp ->
     loadRpzFile (whitelistFile files) = Some allow ->
     NewCnameProcessor files =
       Some {| blockedCnames := ∅; blockedDomains := (base ∪ supp) ∖ allow |}).
Proof.
  unfold NewCnameProcessor. split.
  - rewrite <- getBlockedDomains_none.
    destruct (getBlockedDomains _ _ _); split; congruence.
  - intros base supp allow Hb Hs Ha. by rewrite (getBlockedDomains_some _ _ _ _ _ _ Hb Hs Ha).
Qed.

(** A request to any of the four update endpoints does the same thing:
    the [UpdateCommand] is not used. A non-POST request is answered 405
    and changes nothing. A POST re-reads all three list files: when one
    is missing it is answered 500 and nothing is queued; when all load it
    is answered 200, and once its queued command is processed the
    BlockSet is (blocked ∪ blacklist) ∖ whitelist of the files as read,
    and the CloakMap keeps exactly the entries whose target is in it. *)
Theorem update_request_effect (fuel : nat) (files : ListFiles) (method : string)
    (command : UpdateCommand) (proc : CnameProcessor) :
  updateHandler files method command = updateHandler files method UpdateAllCommand /\
  (method <> MethodPost ->
     (updateHandler files method command).1 = StatusMethodNotAllowed /\
     processCommands fuel proc (updateHandler files method command).2 = Done proc []) /\
  (method = MethodPost ->
     (blockedFile files = None \/ whitelistFile files = None \/ blacklistFile files = None) ->
     updateHandler files method command = (StatusInternalServerError, [])) /\
  (method = MethodPost -> forall base supp allow,
     loadRpzFile (blockedFile files) = Some base ->
     loadRpzFile (blacklistFile files) = Some supp ->
     loadRpzFile (whitelistFile files) = Some allow ->
     (updateHandler files method command).1 = StatusOK /\
     exists p' s, processCommands fuel proc (updateHandler files method command).2 = Done p' s /\
       blockedDomains p' = (base ∪ supp) ∖ allow /\
       forall q t, blockedCnames p' !! q = Some t <->
                   blockedCnames proc !! q = Some t /\ t ∈ (base ∪ supp) ∖ allow).
Proof.
  split; [reflexivity|]. split; [|split].
  - intros Hm. unfold updateHandler.
    destruct (String.eqb_spec method MethodPost) as [?|_]; [contradiction|]. split; reflexivity.
  - intros -> Hf. unfold updateHandler. rewrite String.eqb_refl.
    apply getBlockedDomains_none in Hf. by rewrite Hf.
  - intros -> base supp allow Hb Hs Ha. unfold updateHandler. rewrite String.eqb_refl.
    rewrite (getBlockedDomains_some _ _ _ _ _ _ Hb Hs Ha). split; [reflexivity|].
    cbn [processCommands processCommand snd].
    destruct (processUpdateLists_Done proc ((base ∪ supp) ∖ allow)) as (p' & s & Hp).
    rewrite Hp. exists p', (s ++ []). split; [reflexivity|]. split.
    + exact (processUpdateLists_blocked _ _ _ _ Hp).
    + intros q t. exact (processUpdateLists_lookup_iff _ _ _ _ _ _ Hp).
Qed.

(* ------------------------------------------------------------------ *)
(** ** The reverse-resolution cache *)

(** An entry at most an hour old (the expiry test is a strict [Before])
    is served from the cache: the resolver is not consulted and the cache
    is unchanged. *)
Theorem getHost_fresh_hit (ipToHost : gmap string hostItem) (now : Z)
    (bytes : list Byte.byte) (h : hostItem) :
  ipToHost !! IP_String bytes = Some h -> (now <= timestamp h + Hour)%Z ->
  forall resolver, getHost ipToHost now resolver (Some bytes) = (host h, ipToHost).
Proof.
  intros Hh Hle resolver. unfold getHost. rewrite Hh.
  replace (Z.ltb (timestamp h + Hour) now) with false by (symmetry; apply Z.ltb_ge; lia).
  reflexivity.
Qed.

Lemma getHost_fresh_hit_witness :
  stale_cache !! IP_String [Byte.x0a; Byte.x00; Byte.x00; Byte.x01] =
    Some {| host := "printer.lan."; timestamp := 0 |} /\
  (Hour <= timestamp {| host := "printer.lan."; timestamp := 0 |} + Hour)%Z /\
  getHost stale_cache Hour (fun _ => Some ["other.lan."])
    (Some [Byte.x0a; Byte.x00; Byte.x00; Byte.x01]) = ("printer.lan.", stale_cache).
Proof.
  assert (H1 : stale_cache !! IP_String [Byte.x0a; Byte.x00; Byte.x00; Byte.x01] =
                 Some {| host := "printer.lan."; timestamp := 0 |}) by reflexivity.
  assert (H2 : (Hour <= timestamp {| host := "printer.lan."; timestamp := 0 |} + Hour)%Z)
    by (cbn; lia).
  split; [exact H1|]. split; [exact H2|].
  exact (getHost_fresh_hit _ _ _ _ H1 H2 (fun _ => Some ["other.lan."])).
Defined.

(** When the lookup is attempted (no entry, or one older than an hour)
    and returns a non-empty first name, that name is returned and cached
    with the current time, replacing any earlier entry. *)
Theorem getHost_lookup_success (ipToHost : gmap string hostItem) (now : Z)
    (resolver : Resolver) (bytes : list Byte.byte) (name : string) (rest : list string) :
  match ipToHost !! IP_String bytes with None => True | Some h => (timestamp h + Hour < now)%Z end ->
  resolver (IP_String bytes) = Some (name :: rest) -> name <> "" ->
  getHost ipToHost now resolver (Some bytes) =
    (name, <[IP_String bytes := {| host := name; timestamp := now |}]> ipToHost).
Proof.
  intros Hstale Hr Hn. unfold getHost. rewrite Hr. unfold lookup_ok.
  destruct (String.eqb_spec name "") as [?|_]; [contradiction|].
  destruct (ipToHost !! IP_String bytes) as [h|].
  - replace (Z.ltb (timestamp h + Hour) now) with true by (symmetry; apply Z.ltb_lt; exact Hstale).
    reflexivity.
  - reflexivity.
Qed.

Lemma getHost_lookup_success_witness :
  (timestamp {| host := "printer.lan."; timestamp := 0 |} + Hour < 2 * Hour)%Z /\
  Some ["laser.lan."] = Some ["laser.lan."] /\ "laser.lan." <> "" /\
  getHost stale_cache (2 * Hour) (fun _ => Some ["laser.lan."])
    (Some [Byte.x0a; Byte.x00; Byte.x00; Byte.x01]) =
  ("laser.lan.", <["10.0.0.1" := {| host := "laser.lan."; timestamp := 2 * Hour |}]> stale_cache).
Proof.
  assert (H1 : (timestamp {| host := "printer.lan."; timestamp := 0 |} + Hour < 2 * Hour)%Z)
    by (cbn; unfold Hour; lia).
  assert (H3 : "laser.lan." <> "") by discriminate.
  split; [exact H1|]. split; [reflexivity|]. split; [exact H3|].
  exact (getHost_lookup_success stale_cache (2 * Hour) (fun _ => Some ["laser.lan."])
           [Byte.x0a; Byte.x00; Byte.x00; Byte.x01] "laser.lan." [] H1 eq_refl H3).
Defined.

Lemma IP_String_v4mapped (b : list Byte.byte) :
  length b = 4%nat -> IP_String (v4mapped b) = IP_String b.
Proof.
  destruct b as [|w [|x [|y [|z [|? ?]]]]]; cbn [length]; try discriminate.
  intros _. reflexivity.
Qed.

(** The cache is keyed by the textual address, and [net.IP.String]
    prints an IPv4-mapped IPv6 address ([::ffff:a.b.c.d], 16 bytes) as
    the dotted IPv4 address: the two forms of an IPv4 address share one
    cache entry and get the same host. *)
Theorem getHost_v4mapped_same_entry (ipToHost : gmap string hostItem) (now : Z)
    (resolver : Resolver) (b : list Byte.byte) :
  length b = 4%nat ->
  IP_String (v4mapped b) = IP_String b /\
  getHost ipToHost now resolver (Some (v4mapped b)) = getHost ipToHost now resolver (Some b).
Proof.
  intros Hl. pose proof (IP_String_v4mapped b Hl) as H. split; [exact H|].
  unfold getHost. rewrite H. reflexivity.
Qed.

Lemma getHost_v4mapped_same_entry_witness :
  length [Byte.x0a; Byte.x00; Byte.x00; Byte.x01] = 4%nat /\
  IP_String (v4mapped [Byte.x0a; Byte.x00; Byte.x00; Byte.x01]) = "10.0.0.1" /\
  getHost stale_cache 0 no_resolver (Some (v4mapped [Byte.x0a; Byte.x00; Byte.x00; Byte.x01])) =
  getHost stale_cache 0 no_resolver (Some [Byte.x0a; Byte.x00; Byte.x00; Byte.x01]).
Proof.
  destruct (getHost_v4mapped_same_entry stale_cache 0 no_resolver
              [Byte.x0a; Byte.x00; Byte.x00; Byte.x01] eq_refl) as [H1 H2].
  split; [reflexivity|]. split; [rewrite H1; reflexivity|exact H2].
Defined.

(** [getHost] on a present address: the host it returns is the one
    cached for the address afterwards, and no other cache entry changes
    (entries are never evicted). *)
Theorem getHost_returns_cached_entry (ipToHost : gmap string hostItem) (now : Z)
    (resolver : Resolver) (bytes : list Byte.byte) :
  (exists h, (getHost ipToHost now resolver (Some bytes)).2 !! IP_String bytes = Some h /\
             host h = (getHost ipToHost now resolver (Some bytes)).1) /\
  (forall k, k <> IP_String bytes ->
     (getHost ipToHost now resolver (Some bytes)).2 !! k = ipToHost !! k).
Proof.
  unfold getHost. set (ip := IP_String bytes).
  destruct (ipToHost !! ip) as [h0|] eqn:Hprior.
  - destruct (Z.ltb _ now).
    + cbn [fst snd]. split.
      * eexists. split; [apply lookup_insert_eq|reflexivity].
      * intros k Hk. by rewrite lookup_insert_ne by congruence.
    + cbn [fst snd]. split; [exists h0; split; [exact Hprior|reflexivity]|reflexivity].
  - cbn [fst snd]. split.
    + eexists. split; [apply lookup_insert_eq|reflexivity].
    + intros k Hk. by rewrite lookup_insert_ne by congruence.
Qed.

(* ------------------------------------------------------------------ *)
(** ** Lines of a list file that never give an entry *)


Lemma strip_prefix_cons a p c s :
  strip_prefix (String a p) (String c s) = if Ascii.eqb a c then strip_prefix p s else None.
Proof. reflexivity. Qed.

Lemma rpz_match_starts_L line : starts_L line = false -> rpz_match line = None.
Proof.
  destruct line as [|c rest]; [reflexivity|]. cbn [starts_L]. intros Hc.
  assert (Hz : zone_prefix (String c rest) = None).
  { unfold zone_prefix. rewrite strip_prefix_cons.
    destruct (Ascii.eqb_spec "l"%char c) as [<-|_]; [discriminate|reflexivity]. }
  unfold rpz_match. rewrite Hz. unfold domain_match.
  cbn [String.length labels_from label]. rewrite Hc. reflexivity.
Qed.

(** Only lines starting with a character of [[a-z0-9]] can give an entry
    (the pattern is anchored at the line start, and [local-zone:] starts
    with one): empty lines, comments, indented lines, upper-case names
    and wildcard records such as [*.ads.example.] contribute nothing. *)
Theorem rpz_only_lines_starting_with_label (lines : list string) :
  loadRpzFile (Some lines) = loadRpzFile (Some (filter (fun l => starts_L l = true) lines)).
Proof.
  cbn [loadRpzFile]. f_equal. generalize (∅ : gset string) as acc.
  induction lines as [|l lines IH]; intros acc; [reflexivity|].
  rewrite filter_cons. cbn [fold_left].
  destruct (starts_L l) eqn:Hl.
  - rewrite decide_True by reflexivity. cbn [fold_left]. apply IH.
  - rewrite decide_False by discriminate.
    replace (rpz_line acc l) with acc by (unfold rpz_line; by rewrite (rpz_match_starts_L l Hl)).
    apply IH.
Qed.

(* ------------------------------------------------------------------ *)
(** ** The decoder loop *)

Section DecoderProps.

Variable unmarshal : list Byte.byte -> option Dnstap.
Variable unpack : list Byte.byte -> option Msg.
Variable resolver : Resolver.

Lemma fmap_app_compose (qs : list (list DecodedMessage)) (m : DecodedMessage) msgs :
  (fun q => q ++ msgs) <$> ((fun q => q ++ [m]) <$> qs) = (fun q => q ++ m :: msgs) <$> qs.
Proof.
  rewrite <- list_fmap_compose. apply list_fmap_ext. intros _ q _. cbn.
  by rewrite <- app_assoc.
Qed.

Lemma fmap_app_nil (qs : list (list DecodedMessage)) : (fun q => q ++ []) <$> qs = qs.
Proof.
  rewrite <- (list_fmap_id qs) at 2. apply list_fmap_ext. intros _ q _. apply app_nil_r.
Qed.

Lemma Run_prefix queues ipToHost pre rest :
  Forall (frame_ok unmarshal) pre ->
  exists msgs ipToHost',
    Run unmarshal unpack resolver queues ipToHost (pre ++ rest) =
    Run unmarshal unpack resolver ((fun q => q ++ msgs) <$> queues) ipToHost' rest /\
    msg_dnstapMessage <$> msgs = message_frames unmarshal pre.
Proof.
  revert queues ipToHost. induction pre as [|f pre IH]; intros queues ipToHost Hok.
  - exists [], ipToHost. rewrite fmap_app_nil. split; reflexivity.
  - inversion Hok as [|? ? (dt & Hdt & Hm) Hpre]; subst.
    cbn [app Run]. unfold message_frames at 1. cbn [omap list_omap]. rewrite Hdt.
    destruct (Z.eqb_spec (dt_Type dt) Dnstap_MESSAGE) as [Ht|Ht].
    + destruct (dt_Message dt) as [dm|] eqn:Hdm; [|exfalso; exact (Hm Ht eq_refl)].
      destruct (decode_info unpack dm (now_time f)) as [timestamp dnsMsg].
      destruct (getHost ipToHost (now_host f) resolver (QueryAddress dm)) as [h c1].
      destruct (IH ((fun q => q ++ [{| msg_timestamp := timestamp; msg_dnstapMessage := dm;
                                        msg_dnsMessage := dnsMsg; msg_host := h |}]) <$> queues)
                   c1 Hpre) as (msgs & c' & Hr & Hmsgs).
      exists ({| msg_timestamp := timestamp; msg_dnstapMessage := dm;
                 msg_dnsMessage := dnsMsg; msg_host := h |} :: msgs), c'.
      rewrite Hr, fmap_app_compose. split; [reflexivity|].
      cbn. rewrite Hmsgs. reflexivity.
    + apply IH. exact Hpre.
Qed.

(** Fan-out of the decoder: the loop reaches the end of the frame channel
    exactly when every frame unmarshals and every MESSAGE frame carries a
    message. Then every processor has received, after what it had before,
    the same messages: one per MESSAGE frame, in frame order, carrying that
    frame's dnstap message; other frames are skipped. *)
Theorem decoder_fan_out (queues : list (list DecodedMessage)) (ipToHost : gmap string hostItem)
    (frames : list Frame) :
  (Forall (frame_ok unmarshal) frames <->
     exists queues' ipToHost', Run unmarshal unpack resolver queues ipToHost frames =
                               Finished queues' ipToHost') /\
  (forall queues' ipToHost',
     Run unmarshal unpack resolver queues ipToHost frames = Finished queues' ipToHost' ->
     exists msgs, queues' = (fun q => q ++ msgs) <$> queues /\
                  msg_dnstapMessage <$> msgs = message_frames unmarshal frames).
Proof.
  assert (Hdone : Forall (frame_ok unmarshal) frames ->
     forall queues ipToHost, exists msgs ipToHost',
     Run unmarshal unpack resolver queues ipToHost frames =
       Finished ((fun q => q ++ msgs) <$> queues) ipToHost' /\
     msg_dnstapMessage <$> msgs = message_frames unmarshal frames).
  { intros Hok qs c. destruct (Run_prefix qs c frames [] Hok) as (msgs & c' & Hr & Hm).
    rewrite app_nil_r in Hr. exists msgs, c'. split; [exact Hr|exact Hm]. }
  assert (Hok : forall queues ipToHost queues' ipToHost',
     Run unmarshal unpack resolver queues ipToHost frames = Finished queues' ipToHost' ->
     Forall (frame_ok unmarshal) frames).
  { clear. induction frames as [|f frames IH]; intros qs c qs' c' Hr; [constructor|].
    cbn [Run] in Hr. destruct (unmarshal (frame_bytes f)) as [dt|] eqn:Hdt; [|discriminate].
    destruct (Z.eqb_spec (dt_Type dt) Dnstap_MESSAGE) as [Ht|Ht].
    - destruct (dt_Message dt) as [dm|] eqn:Hdm; [|discriminate].
      destruct (decode_info unpack dm (now_time f)).
      destruct (getHost c (now_host f) resolver (QueryAddress dm)).
      constructor; [|eapply IH; exact Hr].
      exists dt. split; [exact Hdt|]. intros _. by rewrite Hdm.
    - constructor; [|eapply IH; exact Hr].
      exists dt. split; [exact Hdt|]. intros H. contradiction. }
  split.
  - split.
    + intros H. destruct (Hdone H queues ipToHost) as (msgs & c' & Hr & _). eauto.
    + intros (qs' & c' & Hr). eapply Hok; exact Hr.
  - intros qs' c' Hr. destruct (Hdone (Hok _ _ _ _ Hr) queues ipToHost) as (msgs & c'' & Hr' & Hm).
    rewrite Hr in Hr'. injection Hr' as -> _. exists msgs. split; [reflexivity|exact Hm].
Qed.

(** The first frame that does not unmarshal ends the decoder with
    [log.Fatalf], and a MESSAGE frame without a message with a [nil]
    dereference: the frames after it are never read, and the processors
    have received exactly the messages of the frames before it. *)
Theorem decoder_stops_at_bad_frame (queues : list (list DecodedMessage))
    (ipToHost : gmap string hostItem) (pre : list Frame) (f : Frame) (post : list Frame) :
  Forall (frame_ok unmarshal) pre ->
  exists msgs, msg_dnstapMessage <$> msgs = message_frames unmarshal pre /\
    (unmarshal (frame_bytes f) = None ->
       Run unmarshal unpack resolver queues ipToHost (pre ++ f :: post) =
       Fatal ((fun q => q ++ msgs) <$> queues)) /\
    (forall dt, unmarshal (frame_bytes f) = Some dt -> dt_Type dt = Dnstap_MESSAGE ->
       dt_Message dt = None ->
       Run unmarshal unpack resolver queues ipToHost (pre ++ f :: post) =
       RunPanicked ((fun q => q ++ msgs) <$> queues)).
Proof.
  intros Hok. destruct (Run_prefix queues ipToHost pre (f :: post) Hok) as (msgs & c' & Hr & Hm).
  exists msgs. split; [exact Hm|]. rewrite Hr. cbn [Run]. split.
  - intros Hf. by rewrite Hf.
  - intros dt Hdt Ht Hdm. rewrite Hdt, Ht, Z.eqb_refl, Hdm. reflexivity.
Qed.

End DecoderProps.

Lemma decoder_stops_at_bad_frame_witness :
  Forall (frame_ok sample_unmarshal) [good_frame] /\
  exists msgs, msg_dnstapMessage <$> msgs = message_frames sample_unmarshal [good_frame] /\
    (sample_unmarshal (frame_bytes bad_frame) = None ->
       Run sample_unmarshal sample_unpack no_resolver [[]; []] ∅
         ([good_frame] ++ bad_frame :: [good_frame]) =
       Fatal ((fun q => q ++ msgs) <$> [[]; []])) /\
    (forall dt, sample_unmarshal (frame_bytes bad_frame) = Some dt ->
       dt_Type dt = Dnstap_MESSAGE -> dt_Message dt = None ->
       Run sample_unmarshal sample_unpack no_resolver [[]; []] ∅
         ([good_frame] ++ bad_frame :: [good_frame]) =
       RunPanicked ((fun q => q ++ msgs) <$> [[]; []])).
Proof.
  assert (H : Forall (frame_ok sample_unmarshal) [good_frame]).
  { constructor; [|constructor]. eexists. split; [reflexivity|]. discriminate. }
  split; [exact H|].
  exact (decoder_stops_at_bad_frame sample_unmarshal sample_unpack no_resolver
           [[]; []] ∅ [good_frame] bad_frame [good_frame] H).
Defined.
